(** * OasisLMF exposures manager: GUL and FM master tables

    A shallow embedding of [load_gul_master_data_frame] and
    [load_fm_master_data_frame] of [oasislmf/exposures/manager.py].

    Data frames are lists of row records, in row order.  Numbers read by
    [pd.read_csv] are rationals ([Q]); identifiers are integers ([Z]).
    Python dictionaries are [gmap]s.  Exceptions are values of [Exn].

    A canonical frame has a numeric cell for every column that a profile
    element names: a row gives a value for every column name.  The
    functions of [oasislmf.utils.fm] and the ordering of dictionaries by
    [sorted] are parameters. *)

From Stdlib Require Import QArith Ascii String.
From stdpp Require Import base list gmap strings sorting.

Local Open Scope Z_scope.

(** ** Exceptions *)

Record KeysItem := {
  locid : Z;
  perilid : Z;
  coveragetype : Z;
  areaperilid : Z;
  vulnerabilityid : Z
}.

(** [OasisException] carries the keys item that the message is formatted
    with; [ValueError] is what [max] raises on an empty sequence and
    [IndexError] what [[...][0]] raises on an empty list. *)
Inductive Exn :=
  | OasisException (keys_item : KeysItem)
  | ValueError
  | IndexError
  | RuntimeError
  | SystemExit.

(** ** Profiles and canonical frames *)

Record ProfileElement := {
  ProfileElementName : string;
  FieldName : option string;
  CoverageTypeID : Z
}.

(** A row of the canonical exposures frame: its [row_id] and the value of
    every other (lower-cased) column. *)
Record CanExpItem := {
  row_id : Z;
  canexp_cell : string → Q
}.

Record CanAccItem := {
  policynum : Z;
  canacc_cell : string → Q
}.

(** [str.lower] on ASCII text. *)
Definition lower_ascii (c : ascii) : ascii :=
  let n := nat_of_ascii c in
  if ((65 <=? n) && (n <=? 90))%nat then ascii_of_nat (n + 32) else c.

Fixpoint lower (s : string) : string :=
  match s with
  | EmptyString => EmptyString
  | String c s' => String (lower_ascii c) (lower s')
  end.

(** Comparisons of numbers, as in [tiv_value > 0], are decided. *)
Global Instance Qlt_decision (x y : Q) : Decision (x < y)%Q.
Proof. unfold Qlt. apply _. Defined.

(** ** Keyed exposure joiner: [load_gul_master_data_frame] *)

Module Gul.

(** A row of the GUL master frame [gulm_df]. *)
Record Item := {
  item_id : Z;
  canloc_id : Z;
  coverage_id : Z;
  tiv : Q;
  areaperil_id : Z;
  vulnerability_id : Z;
  group_id : Z;
  summary_id : Z;
  summaryset_id : Z
}.

(** The loop variables [item_id] and [gulm_df]. *)
Record LoopState := {
  st_item_id : Z;
  st_gulm_df : list Item
}.

Definition init : LoopState := {| st_item_id := 0; st_gulm_df := [] |}.

(** [canexp_df[canexp_df['row_id'] == keys_item['locid']]] *)
Definition select_row_id (canexp_df : list CanExpItem) (keys_item : KeysItem)
  : list CanExpItem :=
  filter (λ r, row_id r = locid keys_item) canexp_df.

(** [filter(lambda f: f['CoverageTypeID'] == keys_item['coveragetype'], tiv_fields)] *)
Definition tiv_field_matches (tiv_fields : list ProfileElement)
    (keys_item : KeysItem) : list ProfileElement :=
  filter (λ f, CoverageTypeID f = coveragetype keys_item) tiv_fields.

(** The body of the inner [for tiv_field in tiv_field_matches] loop. *)
Definition tiv_step (canexp_item : CanExpItem) (keys_item : KeysItem)
    (st : LoopState) (tiv_field : ProfileElement) : LoopState :=
  let tiv_lookup := lower (ProfileElementName tiv_field) in
  let tiv_value := canexp_cell canexp_item tiv_lookup in
  if decide (0 < tiv_value)%Q then
    let item_id := st_item_id st + 1 in
    {| st_item_id := item_id;
       st_gulm_df := st_gulm_df st ++ [
         {| item_id := item_id;
            canloc_id := row_id canexp_item;
            coverage_id := item_id;
            tiv := tiv_value;
            areaperil_id := areaperilid keys_item;
            vulnerability_id := vulnerabilityid keys_item;
            group_id := item_id;
            summary_id := 1;
            summaryset_id := 1 |} ] |}
  else st.

(** The body of the outer [for i in range(len(keys_df))] loop.  The state is
    returned next to the outcome, so that what had been appended when an
    exception was raised stays visible. *)
Definition keys_step (canexp_df : list CanExpItem)
    (tiv_fields : list ProfileElement) (st : LoopState) (keys_item : KeysItem)
  : (Exn + ()) * LoopState :=
  match select_row_id canexp_df keys_item with
  | [] => (inl (OasisException keys_item), st)
  | canexp_item :: _ =>
      (inr (), foldl (tiv_step canexp_item keys_item) st
                 (tiv_field_matches tiv_fields keys_item))
  end.

Fixpoint keys_loop (canexp_df : list CanExpItem)
    (tiv_fields : list ProfileElement) (keys_df : list KeysItem)
    (st : LoopState) : (Exn + ()) * LoopState :=
  match keys_df with
  | [] => (inr (), st)
  | keys_item :: rest =>
      match keys_step canexp_df tiv_fields st keys_item with
      | (inr _, st') => keys_loop canexp_df tiv_fields rest st'
      | (inl e, st') => (inl e, st')
      end
  end.

Section Load.
(** [sorted] on a list of dictionaries (Python 2 orders them; how is of
    no concern here). *)
Variable sorted_dicts : list ProfileElement → list ProfileElement.

(** [sorted([v for v in six.itervalues(cep) if v.get('FieldName') == 'TIV'])] *)
Definition tiv_fields_of (cep : gmap string ProfileElement)
  : list ProfileElement :=
  sorted_dicts
    (filter (λ v, FieldName v = Some "TIV"%string) (map_to_list cep).*2).

Definition load_gul_master_data_frame (cep : gmap string ProfileElement)
    (canexp_df : list CanExpItem) (keys_df : list KeysItem)
  : Exn + (list CanExpItem * list Item) :=
  let tiv_fields := tiv_fields_of cep in
  match keys_loop canexp_df tiv_fields keys_df init with
  | (inr _, st) => inr (canexp_df, st_gulm_df st)
  | (inl e, _) => inl e
  end.
End Load.

(** *** The pairs scanned

    Every (lookup row, matching TIV field) pair of a run, in scan order,
    with the canonical record the lookup row is joined to. *)
Definition scanned_pairs (canexp_df : list CanExpItem)
    (tiv_fields : list ProfileElement) (keys_df : list KeysItem)
  : list (KeysItem * CanExpItem * ProfileElement) :=
  keys_item ← keys_df;
  match select_row_id canexp_df keys_item with
  | [] => []
  | canexp_item :: _ =>
      (λ f, (keys_item, canexp_item, f)) <$> tiv_field_matches tiv_fields keys_item
  end.

Definition pair_tiv (p : KeysItem * CanExpItem * ProfileElement) : Q :=
  canexp_cell p.1.2 (lower (ProfileElementName p.2)).

Definition positive_pairs (canexp_df : list CanExpItem)
    (tiv_fields : list ProfileElement) (keys_df : list KeysItem) :=
  filter (λ p, (0 < pair_tiv p)%Q)
    (scanned_pairs canexp_df tiv_fields keys_df).

(** The GUL item a pair gives rise to when it is the [n]-th emitted. *)
Definition item_of_pair (n : Z) (p : KeysItem * CanExpItem * ProfileElement)
  : Item :=
  {| item_id := n;
     canloc_id := row_id p.1.2;
     coverage_id := n;
     tiv := pair_tiv p;
     areaperil_id := areaperilid p.1.1;
     vulnerability_id := vulnerabilityid p.1.1;
     group_id := n;
     summary_id := 1;
     summaryset_id := 1 |}.

(** The rows appended for a list of pairs when [item_id] stands at [n]. *)
Definition emitted (n : Z) (ps : list (KeysItem * CanExpItem * ProfileElement))
  : list Item :=
  imap (λ i p, item_of_pair (n + Z.of_nat i + 1) p) ps.

Definition unmatched (canexp_df : list CanExpItem) (keys_item : KeysItem) : Prop :=
  ∀ r, r ∈ canexp_df → row_id r ≠ locid keys_item.

End Gul.

(** ** FM hierarchy expander: the first half of [load_fm_master_data_frame] *)

(** A value of a term column: the frame holds floats, integers and strings;
    [CNaN] is what pandas fills a cell with when an assigned series has no
    entry for its row. *)
Inductive Cell :=
  | CFloat (q : Q)
  | CInt (z : Z)
  | CStr (s : string)
  | CNaN.

Inductive Column := limit | deductible | deductible_type | share | calcrule_id.

Global Instance Column_eq_dec : EqDecision Column.
Proof. solve_decision. Defined.

Module Fm.

(** A row of the FM master frame [fm_df], with its [index] column. *)
Record Row := {
  item_id : Z;
  canloc_id : Z;
  level_id : Z;
  layer_id : Z;
  agg_id : Z;
  policytc_id : Z;
  col_deductible : Cell;
  col_limit : Cell;
  col_share : Cell;
  col_deductible_type : Cell;
  col_calcrule_id : Cell;
  tiv : Q;
  index : nat
}.

Definition get_col (c : Column) (r : Row) : Cell :=
  match c with
  | limit => col_limit r
  | deductible => col_deductible r
  | deductible_type => col_deductible_type r
  | share => col_share r
  | calcrule_id => col_calcrule_id r
  end.

Definition set_col (c : Column) (v : Cell) (r : Row) : Row :=
  {| item_id := item_id r; canloc_id := canloc_id r; level_id := level_id r;
     layer_id := layer_id r; agg_id := agg_id r; policytc_id := policytc_id r;
     col_deductible := if decide (c = deductible) then v else col_deductible r;
     col_limit := if decide (c = limit) then v else col_limit r;
     col_share := if decide (c = share) then v else col_share r;
     col_deductible_type :=
       if decide (c = deductible_type) then v else col_deductible_type r;
     col_calcrule_id := if decide (c = calcrule_id) then v else col_calcrule_id r;
     tiv := tiv r; index := index r |}.

Definition set_policytc_id (v : Z) (r : Row) : Row :=
  {| item_id := item_id r; canloc_id := canloc_id r; level_id := level_id r;
     layer_id := layer_id r; agg_id := agg_id r; policytc_id := v;
     col_deductible := col_deductible r; col_limit := col_limit r;
     col_share := col_share r; col_deductible_type := col_deductible_type r;
     col_calcrule_id := col_calcrule_id r;
     tiv := tiv r; index := index r |}.

(** [fm_df[column] = result]: the series is aligned on the index, which is
    the row position; the number of rows stays what it is. *)
Definition set_column (c : Column) (result : list Cell) (fm_df : list Row)
  : list Row :=
  imap (λ i r, set_col c (default CNaN (result !! i)) r) fm_df.

(** An element of [preset_data]: [(level, (item_id, canloc_id, layer_id, tiv))]. *)
Definition Preset : Type := Z * (Z * Z * Z * Q).

(** [itertools.product(xs, ys)] *)
Definition product {A B} (xs : list A) (ys : list B) : list (A * B) :=
  x ← xs; y ← ys; [(x, y)].

(** The slice [l[-n:]]; as [-0] is [0], [l[-0:]] is all of [l]. *)
Definition last_n {A} (n : nat) (l : list A) : list A :=
  if decide (n = 0%nat) then l else drop (length l - n) l.

(** [max(l)] *)
Definition py_max (l : list Z) : Exn + Z :=
  match l with
  | [] => inl ValueError
  | x :: xs => inr (foldl Z.max x xs)
  end.

(** [[(i + 1) for i in range(len(canacc_df.policynum.values))]] *)
Definition layer_ids_of (canacc_df : list CanAccItem) : list Z :=
  (λ i, Z.of_nat i + 1) <$> seq 0 (length (policynum <$> canacc_df)).

(** [zip(item_id.values, canloc_id.values, [1]*len(gulm_df), tiv.values)]:
    the columns of one frame, zipped, are its rows. *)
Definition gul_tuples (gulm_df : list Gul.Item) : list (Z * Z * Z * Q) :=
  (λ g, (Gul.item_id g, Gul.canloc_id g, 1, Gul.tiv g)) <$> gulm_df.

Definition base_preset (fm_levels : list Z) (gulm_df : list Gul.Item)
  : list Preset :=
  product fm_levels (gul_tuples gulm_df).

(** [(t[1][0], (t[1][1][0], t[1][1][1], t[0], t[1][1][3]))] *)
Definition relayer (t : Z * Preset) : Preset :=
  let '(layer, (level, (item, canloc, _, tiv0))) := t in
  (level, (item, canloc, layer, tiv0)).

Definition layer_extension (layer_ids : list Z) (gulm_df : list Gul.Item)
    (preset_data : list Preset) : list Preset :=
  relayer <$> product (drop 1 layer_ids) (last_n (length gulm_df) preset_data).

Definition preset_data_of (fm_levels : list Z) (gulm_df : list Gul.Item)
    (layer_ids : list Z) : Exn + list Preset :=
  let preset_data := base_preset fm_levels gulm_df in
  match py_max layer_ids with
  | inl e => inl e
  | inr m =>
      if 1 <? m
      then inr (preset_data ++ layer_extension layer_ids gulm_df preset_data)
      else inr preset_data
  end.

(** [fm_levels.index([fml for fml in fm_levels if fml == level_id][0]) + 1] *)
Definition level_rank (fm_levels : list Z) (level : Z) : Exn + Z :=
  match filter (λ fml, fml = level) fm_levels with
  | [] => inl IndexError
  | x :: _ =>
      match list_find (λ fml, fml = x) fm_levels with
      | Some (i, _) => inr (Z.of_nat i + 1)
      | None => inl ValueError
      end
  end.

(** One dictionary of [data], with the row's [index]. *)
Definition data_row (fm_levels : list Z) (i : nat) (p : Preset) : Exn + Row :=
  let '(level, (item, canloc, layer, tiv0)) := p in
  match level_rank fm_levels level with
  | inl e => inl e
  | inr rank =>
      inr {| item_id := item; canloc_id := canloc; level_id := rank;
             layer_id := layer; agg_id := 1; policytc_id := 0;
             col_deductible := CFloat 0; col_limit := CFloat 0;
             col_share := CFloat 0; col_deductible_type := CStr "B";
             col_calcrule_id := CInt 2; tiv := tiv0; index := i |}
  end.

Fixpoint data_rows (fm_levels : list Z) (i : nat) (ps : list Preset)
  : Exn + list Row :=
  match ps with
  | [] => inr []
  | p :: ps' =>
      match data_row fm_levels i p with
      | inl e => inl e
      | inr r =>
          match data_rows fm_levels (S i) ps' with
          | inl e => inl e
          | inr rs => inr (r :: rs)
          end
      end
  end.

(** The rank of a level, 0 for a level that has none. *)
Definition rank_in (fm_levels : list Z) (level : Z) : Z :=
  match level_rank fm_levels level with inr r => r | inl _ => 0 end.

(** The key of the row built from an element of [preset_data], given the
    rank of its level. *)
Definition preset_key (rank : Z) (p : Preset) : Z * Z * Z * Z * Q :=
  let '(_, (item, canloc, layer, tiv0)) := p in (item, canloc, rank, layer, tiv0).

Section Expander.
(** The grouped term metadata of one level, and
    [canonical_profiles_grouped_fm_terms] of [oasislmf.utils.fm]. *)
Variable FmTerms : Type.
Variable canonical_profiles_grouped_fm_terms :
  list (gmap string ProfileElement) → gmap Z FmTerms.

(** [sorted(gfmt.keys())] *)
Definition fm_levels_of (gfmt : gmap Z FmTerms) : list Z :=
  merge_sort Z.le (map_to_list gfmt).*1.

(** The frame [fm_df] as it stands when the tasks are built. *)
Definition preset_frame (gulm_df : list Gul.Item)
    (cep cap : gmap string ProfileElement) (canacc_df : list CanAccItem)
  : Exn + list Row :=
  let gfmt := canonical_profiles_grouped_fm_terms [cep; cap] in
  let fm_levels := fm_levels_of gfmt in
  match preset_data_of fm_levels gulm_df (layer_ids_of canacc_df) with
  | inl e => inl e
  | inr preset_data => data_rows fm_levels 0 preset_data
  end.
End Expander.

Arguments fm_levels_of {_} _.
Arguments preset_frame {_} _ _ _ _ _.

(** What identifies a row apart from its position and its terms:
    (item_id, canloc_id, level_id, layer_id, tiv). *)
Definition key (r : Row) : Z * Z * Z * Z * Q :=
  (item_id r, canloc_id r, level_id r, layer_id r, tiv r).

(** The keys of one row per GUL item, in item order, at level rank [rank]
    and layer [layer]. *)
Definition level_block (rank layer : Z) (gulm_df : list Gul.Item)
  : list (Z * Z * Z * Z * Q) :=
  (λ g, (Gul.item_id g, Gul.canloc_id g, rank, layer, Gul.tiv g)) <$> gulm_df.

(** The numbers [first], [first + 1], ..., of which there are [n]. *)
Definition from_to (first : Z) (n : nat) : list Z :=
  (λ i, Z.of_nat i + first) <$> seq 0 n.

(** The layer-1 rows: level-major, one block per level rank 1..[levels]. *)
Definition base_keys (levels : nat) (gulm_df : list Gul.Item) :=
  rank ← from_to 1 levels; level_block rank 1 gulm_df.

(** The rows of the layers 2..[layers]: layer-major, one block per layer,
    all at the last level rank. *)
Definition layer_keys (levels layers : nat) (gulm_df : list Gul.Item) :=
  if decide (levels = 0%nat) then []
  else layer ← from_to 2 (layers - 1);
       level_block (Z.of_nat levels) layer gulm_df.

(** The layer count: the largest layer id. *)
Definition layer_count (canacc_df : list CanAccItem) : Exn + Z :=
  py_max (layer_ids_of canacc_df).

(** The number of distinct policy numbers of the account frame. *)
Definition distinct_policynums (canacc_df : list CanAccItem) : nat :=
  length (remove_dups (policynum <$> canacc_df)).

End Fm.

(** ** PolicyTC grouper *)

Module Grouper.

(** The 5-tuple (deductible, limit, share, deductible_type, calcrule_id). *)
Definition Terms : Type := Cell * Cell * Cell * Cell * Cell.

Definition terms_of (r : Fm.Row) : Terms :=
  (Fm.col_deductible r, Fm.col_limit r, Fm.col_share r,
   Fm.col_deductible_type r, Fm.col_calcrule_id r).

Definition cell_eqb (a b : Cell) : bool :=
  match a, b with
  | CFloat p, CFloat q => Qeq_bool p q
  | CInt x, CInt y => x =? y
  | CStr s, CStr t => String.eqb s t
  | CNaN, CNaN => true
  | _, _ => false
  end.

Definition terms_eqb (s t : Terms) : bool :=
  let '(a1, a2, a3, a4, a5) := s in
  let '(b1, b2, b3, b4, b5) := t in
  cell_eqb a1 b1 && cell_eqb a2 b2 && cell_eqb a3 b3
  && cell_eqb a4 b4 && cell_eqb a5 b5.

(** The id recorded for a tuple, if it has been seen. *)
Fixpoint seen_id (seen : list (Terms * Z)) (t : Terms) : option Z :=
  match seen with
  | [] => None
  | (t', id) :: rest => if terms_eqb t t' then Some id else seen_id rest t
  end.

(** Modelled from the spec: the scan behind [get_policytc_id] of
    [oasislmf.utils.fm], which is not under src/.  Rows are scanned in table
    order; a tuple not seen before mints the next id and is recorded; the
    row is assigned the id of its tuple. *)
Fixpoint scan (rows : list Fm.Row) (seen : list (Terms * Z)) (next : Z)
  : list Z :=
  match rows with
  | [] => []
  | r :: rest =>
      match seen_id seen (terms_of r) with
      | Some id => id :: scan rest seen next
      | None => next :: scan rest (seen ++ [(terms_of r, next)]) (next + 1)
      end
  end.

(** Modelled from the spec: [get_policytc_id(fm_df, i)], not under src/; ids
    start at 1, and a row that is not in the frame has none (the call
    raises). *)
Definition get_policytc_id (fm_df : list Fm.Row) (i : nat) : option Z :=
  scan fm_df [] 1 !! i.

(** [fm_df['policytc_id'] = fm_df['index'].apply(lambda i: get_policytc_id(fm_df, i))] *)
Definition assign_policytc_id (fm_df : list Fm.Row) : option (list Fm.Row) :=
  mapM (λ r, (λ id, Fm.set_policytc_id id r) <$> get_policytc_id fm_df (Fm.index r))
       fm_df.

(** The mapping that the scan has recorded when it is through [rows]. *)
Fixpoint final_seen (rows : list Fm.Row) (seen : list (Terms * Z)) (next : Z)
  : list (Terms * Z) :=
  match rows with
  | [] => seen
  | r :: rest =>
      match seen_id seen (terms_of r) with
      | Some _ => final_seen rest seen next
      | None => final_seen rest (seen ++ [(terms_of r, next)]) (next + 1)
      end
  end.

(** What the scan keeps true of the tuples recorded so far: the ids are
    1, 2, ... in the order of recording, [next] is the id after them, and no
    tuple is recorded twice. *)
Record recorded (seen : list (Terms * Z)) (next : Z) : Prop := {
  recorded_ids : seen.*2 = (λ i, Z.of_nat i + 1) <$> seq 0 (length seen);
  recorded_next : next = Z.of_nat (length seen) + 1;
  recorded_once : ∀ i j s t a b,
    seen !! i = Some (s, a) → seen !! j = Some (t, b) →
    terms_eqb s t = true → i = j
}.

(** The largest id of a list of ids, 0 when there is none. *)
Definition max_id (ids : list Z) : Z := foldr Z.max 0 ids.

End Grouper.

(** ** Term derivation worker pool: the second half of
    [load_fm_master_data_frame]

    The threads of the pool and the coordinating thread are small state
    machines over the shared queues, the stop flag and [fm_df]; a schedule
    says which thread moves next, or that SIGINT is delivered. *)

Module Pool.

Section Pool.
Variable FmTerms : Type.

(** A rule function: [func(gfmt, canexp_df, canacc_df, fm_df, i)]; [None]
    when the call raises. *)
Definition RuleFn : Type :=
  gmap Z FmTerms → list CanExpItem → list CanAccItem → list Fm.Row → nat
  → option Cell.

(** The rule functions of [oasislmf.utils.fm]. *)
Variables get_limit get_deductible get_deductible_type get_share
          get_calc_rule : RuleFn.

Definition fm_term_columns : list Column :=
  [limit; deductible; deductible_type; share; calcrule_id].

Definition columns_funcs : list (Column * RuleFn) :=
  zip fm_term_columns
      [get_limit; get_deductible; get_deductible_type; get_share;
       get_calc_rule].

(** [(column, func, gfmt_copy, canexp_df_copy, canacc_df_copy, fm_df_copy)] *)
Record Task := {
  t_column : Column;
  t_func : RuleFn;
  t_gfmt : gmap Z FmTerms;
  t_canexp_df : list CanExpItem;
  t_canacc_df : list CanAccItem;
  t_fm_df : list Fm.Row
}.

Definition tasks_of (gfmt : gmap Z FmTerms) (canexp_df : list CanExpItem)
    (canacc_df : list CanAccItem) (fm_df : list Fm.Row) : list Task :=
  (λ cf, {| t_column := cf.1; t_func := cf.2; t_gfmt := gfmt;
            t_canexp_df := canexp_df; t_canacc_df := canacc_df;
            t_fm_df := fm_df |}) <$> columns_funcs.

(** Where a [FMTempTableTermColumnWorker] thread stands. *)
Inductive Worker :=
  | WUnstarted
  | WLoop                               (* at [while not stopper.is_set()] *)
  | WGet                                (* at [task_q.get_nowait()] *)
  | WApply (t : Task) (done : list Cell) (* inside [apply], rows done so far *)
  | WPublished                          (* at [task_q.task_done()] *)
  | WFinished                           (* [run] has returned *)
  | WDied.                              (* an exception left [run] *)

(** Where the coordinating thread stands. *)
Inductive Main :=
  | MStart (k : nat)     (* in [for worker in workers: worker.start()] *)
  | MJoin                (* at [task_q.join()] *)
  | MMerge               (* in [while not result_q.empty()] *)
  | MReturn              (* [return fm_df] *)
  | MHandler (k : nat)   (* in the signal handler, at [workers[k].join()] *)
  | MRaised (e : Exn).

Record State := {
  task_q : list Task;
  unfinished : nat;          (* [task_q.unfinished_tasks] *)
  result_q : list (Column * list Cell);
  stopper : bool;
  workers : list Worker;
  fm_df : list Fm.Row;
  main : Main
}.

Definition with_worker (w : nat) (st : Worker) (s : State) : State :=
  {| task_q := task_q s; unfinished := unfinished s; result_q := result_q s;
     stopper := stopper s; workers := <[w := st]> (workers s);
     fm_df := fm_df s; main := main s |}.

Definition with_task_q (q : list Task) (s : State) : State :=
  {| task_q := q; unfinished := unfinished s; result_q := result_q s;
     stopper := stopper s; workers := workers s;
     fm_df := fm_df s; main := main s |}.

Definition with_unfinished (u : nat) (s : State) : State :=
  {| task_q := task_q s; unfinished := u; result_q := result_q s;
     stopper := stopper s; workers := workers s;
     fm_df := fm_df s; main := main s |}.

Definition with_result_q (q : list (Column * list Cell)) (s : State) : State :=
  {| task_q := task_q s; unfinished := unfinished s; result_q := q;
     stopper := stopper s; workers := workers s;
     fm_df := fm_df s; main := main s |}.

Definition with_stopper (b : bool) (s : State) : State :=
  {| task_q := task_q s; unfinished := unfinished s; result_q := result_q s;
     stopper := b; workers := workers s;
     fm_df := fm_df s; main := main s |}.

Definition with_fm_df (df : list Fm.Row) (s : State) : State :=
  {| task_q := task_q s; unfinished := unfinished s; result_q := result_q s;
     stopper := stopper s; workers := workers s;
     fm_df := df; main := main s |}.

Definition with_main (m : Main) (s : State) : State :=
  {| task_q := task_q s; unfinished := unfinished s; result_q := result_q s;
     stopper := stopper s; workers := workers s;
     fm_df := fm_df s; main := m |}.

(** [func(gfmt_copy, canexp_df_copy, canacc_df_copy, fm_df_copy, i)] *)
Definition call (t : Task) (i : nat) : option Cell :=
  t_func t (t_gfmt t) (t_canexp_df t) (t_canacc_df t) (t_fm_df t) i.

(** One move of worker [w] in [FMTempTableTermColumnWorker.run]. *)
Definition exec_worker (w : nat) (s : State) : option State :=
  match workers s !! w with
  | Some WLoop =>
      Some (with_worker w (if stopper s then WFinished else WGet) s)
  | Some WGet =>
      match task_q s with
      | [] => Some (with_worker w WFinished s)               (* queue.Empty *)
      | t :: q => Some (with_worker w (WApply t []) (with_task_q q s))
      end
  | Some (WApply t done) =>
      match t_fm_df t !! length done with
      | Some r =>
          match call t (Fm.index r) with
          | Some v => Some (with_worker w (WApply t (done ++ [v])) s)
          | None => Some (with_worker w WDied s)
          end
      | None =>
          Some (with_worker w WPublished
                  (with_result_q (result_q s ++ [(t_column t, done)]) s))
      end
  | Some WPublished =>
      match unfinished s with
      | O => Some (with_worker w WDied s)      (* called too many times *)
      | S u => Some (with_worker w WLoop (with_unfinished u s))
      end
  | Some WUnstarted | Some WFinished | Some WDied | None => None
  end.

(** One move of the coordinating thread, from [worker.start()] on; [None]
    when it is blocked or has left the function. *)
Definition exec_main (s : State) : option State :=
  match main s with
  | MStart k =>
      match workers s !! k with
      | Some WUnstarted =>
          Some (with_main (MStart (S k)) (with_worker k WLoop s))
      | Some _ => Some (with_main (MRaised RuntimeError) s)
      | None => Some (with_main MJoin s)
      end
  | MJoin =>
      match unfinished s with
      | O => Some (with_main MMerge s)
      | S _ => None
      end
  | MMerge =>
      match result_q s with
      | (column, result) :: q =>
          Some (with_fm_df (Fm.set_column column result (fm_df s))
                  (with_result_q q s))
      | [] =>
          match Grouper.assign_policytc_id (fm_df s) with
          | Some df => Some (with_main MReturn (with_fm_df df s))
          | None => Some (with_main (MRaised IndexError) s)
          end
      end
  | MHandler k =>
      match workers s !! k with
      | Some WUnstarted => Some (with_main (MRaised RuntimeError) s)
      | Some WFinished | Some WDied => Some (with_main (MHandler (S k)) s)
      | Some _ => None
      | None => Some (with_main (MRaised SystemExit) s)  (* sys.exit(0) *)
      end
  | MReturn | MRaised _ => None
  end.

(** SIGINT: [SignalHandler.__call__] runs on the coordinating thread and
    first sets the stop flag.  It can be delivered wherever that thread
    is between installing the handler and returning; an interpreter that
    holds the signal back while the thread waits in [join] takes fewer of
    these moves, not other ones. *)
Definition exec_sigint (s : State) : option State :=
  match main s with
  | MStart _ | MJoin | MMerge =>
      Some (with_main (MHandler 0) (with_stopper true s))
  | MReturn | MHandler _ | MRaised _ => None
  end.

Inductive Event := EvMain | EvWorker (w : nat) | EvSigint.

Definition exec (e : Event) (s : State) : option State :=
  match e with
  | EvMain => exec_main s
  | EvWorker w => exec_worker w s
  | EvSigint => exec_sigint s
  end.

Fixpoint run (sched : list Event) (s : State) : option State :=
  match sched with
  | [] => Some s
  | e :: rest =>
      match exec e s with
      | Some s' => run rest s'
      | None => None
      end
  end.

(** The state in which the first worker is about to be started: the tasks
    hold the copies, the queue holds the tasks. *)
Definition start (gfmt : gmap Z FmTerms) (canexp_df : list CanExpItem)
    (canacc_df : list CanAccItem) (fm_df0 : list Fm.Row) : State :=
  let tasks := tasks_of gfmt canexp_df canacc_df fm_df0 in
  {| task_q := tasks; unfinished := length tasks; result_q := [];
     stopper := false;
     workers := (λ _, WUnstarted) <$> fm_term_columns;
     fm_df := fm_df0; main := MStart 0 |}.
End Pool.

Arguments t_column {_} _.
Arguments t_func {_} _.
Arguments t_gfmt {_} _.
Arguments t_canexp_df {_} _.
Arguments t_canacc_df {_} _.
Arguments t_fm_df {_} _.
Arguments WUnstarted {_}.
Arguments WLoop {_}.
Arguments WGet {_}.
Arguments WApply {_} _ _.
Arguments WPublished {_}.
Arguments WFinished {_}.
Arguments WDied {_}.
Arguments task_q {_} _.
Arguments unfinished {_} _.
Arguments result_q {_} _.
Arguments stopper {_} _.
Arguments workers {_} _.
Arguments fm_df {_} _.
Arguments main {_} _.
Arguments with_worker {_} _ _ _.
Arguments with_task_q {_} _ _.
Arguments with_unfinished {_} _ _.
Arguments with_result_q {_} _ _.
Arguments with_stopper {_} _ _.
Arguments with_fm_df {_} _ _.
Arguments with_main {_} _ _.
Arguments call {_} _ _.
Arguments exec_worker {_} _ _.
Arguments exec_main {_} _.
Arguments exec_sigint {_} _.
Arguments exec {_} _ _.
Arguments run {_} _ _.
Arguments tasks_of {_} _ _ _ _ _ _ _ _ _.
Arguments start {_} _ _ _ _ _ _ _ _ _.

End Pool.

(** ** What the worker pool keeps true

    The definitions used to state and prove the properties of the pool. *)

Module PoolInv.
Import Pool.

Section Invariant.
Variable FmTerms : Type.
Variables get_limit get_deductible get_deductible_type get_share
          get_calc_rule : RuleFn FmTerms.

(** The inputs that the tasks are built from. *)
Variable gfmt : gmap Z FmTerms.
Variable canexp_df : list CanExpItem.
Variable canacc_df : list CanAccItem.
Variable fm_df0 : list Fm.Row.

Abbreviation Task := (Task FmTerms).
Abbreviation Worker := (Worker FmTerms).
Abbreviation State := (State FmTerms).

(** The function that [columns_funcs] pairs a column with. *)
Definition rule (c : Column) : RuleFn FmTerms :=
  match c with
  | limit => get_limit
  | deductible => get_deductible
  | deductible_type => get_deductible_type
  | share => get_share
  | calcrule_id => get_calc_rule
  end.

(** The task of a column, as [tasks_of] builds it. *)
Definition initial_task (c : Column) : Task :=
  {| t_column := c; t_func := rule c; t_gfmt := gfmt;
     t_canexp_df := canexp_df; t_canacc_df := canacc_df;
     t_fm_df := fm_df0 |}.

(** The value of a term cell: the rule of its column at the row's index,
    on the inputs the tasks are built from. *)
Definition derive (c : Column) (r : Fm.Row) : option Cell :=
  rule c gfmt canexp_df canacc_df fm_df0 (Fm.index r).

(** The series that [apply] builds for a column, if no call raises. *)
Definition column_result (c : Column) : option (list Cell) :=
  mapM (derive c) fm_df0.

(** The frame with the results of the columns [merged] assigned. *)
Definition merged_frame (merged : list Column) : list Fm.Row :=
  foldr (λ c df, Fm.set_column c (default [] (column_result c)) df)
    fm_df0 merged.

(** The frame that is returned when every column has a result. *)
Definition derived_frame : option (list Fm.Row) :=
  Grouper.assign_policytc_id (merged_frame (fm_term_columns)).

(** The column a worker is computing. *)
Definition holding (w : Worker) : list Column :=
  match w with
  | WApply t _ => [t_column t]
  | _ => []
  end.

(** 1 for a worker that has published and not yet called [task_done]. *)
Definition publishing (w : Worker) : nat :=
  match w with
  | WPublished => 1
  | _ => 0
  end.

Definition task_ok (t : Task) : Prop := t = initial_task (t_column t).

Definition worker_ok (w : Worker) : Prop :=
  match w with
  | WApply t done =>
      task_ok t
      ∧ mapM (derive (t_column t)) (take (length done) fm_df0) = Some done
  | _ => True
  end.

Definition frame_ok (s : State) (merged : list Column) : Prop :=
  match main s with
  | MReturn =>
      merged ≡ₚ fm_term_columns
      ∧ Grouper.assign_policytc_id (merged_frame merged) = Some (fm_df s)
  | _ => fm_df s = merged_frame merged
  end.

Definition main_ok (s : State) : Prop :=
  match main s with
  | MMerge | MReturn | MRaised IndexError => unfinished s = 0%nat
  | _ => True
  end.

Definition stop_ok (s : State) : Prop :=
  stopper s = true →
  match main s with
  | MHandler _ | MRaised RuntimeError | MRaised SystemExit => True
  | _ => False
  end.

Record inv_with (s : State) (merged : list Column) : Prop := {
  inv_tasks : Forall task_ok (task_q s);
  inv_workers : Forall worker_ok (workers s);
  inv_results : Forall (λ cr, column_result cr.1 = Some cr.2) (result_q s);
  inv_merged : Forall (λ c, is_Some (column_result c)) merged;
  inv_accounted :
    (t_column <$> task_q s) ++ (workers s ≫= holding)
    ++ (result_q s).*1 ++ merged ⊆+ fm_term_columns;
  inv_counted :
    (unfinished s + length (result_q s) + length merged
     = length fm_term_columns + sum_list_with publishing (workers s))%nat;
  inv_after_join : merged ≠ [] → unfinished s = 0%nat;
  inv_frame : frame_ok s merged;
  inv_main : main_ok s;
  inv_stop : stop_ok s
}.

Definition inv (s : State) : Prop := ∃ merged, inv_with s merged.

(** The cell that the merge of [merged] leaves in column [c] of the
    row at position [i]. *)
Definition merged_cell (c : Column) (i : nat) : Cell :=
  default CNaN (default [] (column_result c) !! i).

Definition merged_row (merged : list Column) (i : nat) (r : Fm.Row) : Fm.Row :=
  foldr (λ c r', Fm.set_col c (merged_cell c i) r') r merged.
End Invariant.

(** A schedule in which SIGINT is not delivered. *)
Definition undisturbed (sched : list Event) : Prop :=
  Forall (λ e, e ≠ EvSigint) sched.

(** The moves of worker 0 for one task on a frame of [rows] rows: the loop
    test, the claim, the rows, the publication and [task_done]. *)
Definition task_events (rows : nat) : list Event :=
  [EvWorker 0; EvWorker 0] ++ replicate rows (EvWorker 0)
  ++ [EvWorker 0; EvWorker 0].

(** The schedule in which the coordinating thread starts the workers and
    reaches the join, worker 0 computes the five columns one after the
    other, and the coordinating thread merges them and returns. *)
Definition sequential (rows : nat) : list Event :=
  replicate 6 EvMain
  ++ mjoin (replicate 5 (task_events rows))
  ++ replicate 7 EvMain.

(** What holds as long as SIGINT is not delivered: the flag is not set, no
    thread is started twice, and the coordinating thread is in the function
    or has left it through [return] or through the grouper. *)
Definition calm {FmTerms} (s : State FmTerms) : Prop :=
  stopper s = false
  ∧ match main s with
    | MStart k =>
        ∀ j w, (k ≤ j)%nat → workers s !! j = Some w → w = WUnstarted
    | MJoin | MMerge | MReturn | MRaised IndexError => True
    | MHandler _ | MRaised _ => False
    end.

(** How many rows of its column a worker inside [apply] has done. *)
Definition rows_done {FmTerms} (w : Worker FmTerms) : option nat :=
  match w with
  | WApply _ done => Some (length done)
  | _ => None
  end.

(** The claim that a worker inside [apply] leaves the loop over the rows
    once the flag is set. *)
Definition exits_between_rows {FmTerms} (s : State FmTerms) (w : nat) : Prop :=
  stopper s = true →
  ∀ n, rows_done <$> workers s !! w = Some (Some n) →
  ∀ s', exec (EvWorker w) s = Some s' →
  rows_done <$> workers s' !! w = Some None.

(** No thread can move. *)
Definition quiescent {FmTerms} (s : State FmTerms) : Prop :=
  exec EvMain s = None ∧ ∀ w, exec (EvWorker w) s = None.

(** The coordinating thread has left the function with an exception. *)
Definition aborted {FmTerms} (s : State FmTerms) : Prop :=
  ∃ e, main s = MRaised e.

End PoolInv.

(** ** A small portfolio

    Two locations, two coverage types, two FM levels and a two-layer
    account; the inputs on which the properties below are tried. *)

Module Example.
Import Pool.

Definition cep : gmap string ProfileElement :=
  {[ "BuildingTIV"%string :=
       {| ProfileElementName := "BuildingTIV"; FieldName := Some "TIV"%string;
          CoverageTypeID := 1 |};
     "ContentsTIV"%string :=
       {| ProfileElementName := "ContentsTIV"; FieldName := Some "TIV"%string;
          CoverageTypeID := 3 |};
     "PostCode"%string :=
       {| ProfileElementName := "PostCode"; FieldName := None;
          CoverageTypeID := 0 |} ]}.

Definition location (id : Z) (building contents : Q) : CanExpItem :=
  {| row_id := id;
     canexp_cell := λ column,
       if String.eqb column "buildingtiv" then building
       else if String.eqb column "contentstiv" then contents
       else 0%Q |}.

Definition canexp_df : list CanExpItem :=
  [location 1 100 0; location 2 250 50].

Definition keys_item (loc coverage areaperil vulnerability : Z) : KeysItem :=
  {| locid := loc; perilid := 1; coveragetype := coverage;
     areaperilid := areaperil; vulnerabilityid := vulnerability |}.

Definition keys_df : list KeysItem :=
  [keys_item 1 1 11 21; keys_item 1 3 11 23; keys_item 2 3 12 23;
   keys_item 2 1 12 21].

(** The same lookups with one for a location that is not in the frame. *)
Definition keys_df_stale : list KeysItem :=
  [keys_item 1 1 11 21; keys_item 9 1 19 21; keys_item 2 1 12 21].

Definition gul_item (id canloc : Z) (tiv0 : Q) (areaperil vulnerability : Z)
  : Gul.Item :=
  {| Gul.item_id := id; Gul.canloc_id := canloc; Gul.coverage_id := id;
     Gul.tiv := tiv0; Gul.areaperil_id := areaperil;
     Gul.vulnerability_id := vulnerability; Gul.group_id := id;
     Gul.summary_id := 1; Gul.summaryset_id := 1 |}.

Definition gulm_df : list Gul.Item :=
  [gul_item 1 1 100 11 21; gul_item 2 2 50 12 23; gul_item 3 2 250 12 21].

(** Two levels, with identifiers 2 and 5. *)
Definition grouped_fm_terms (_ : list (gmap string ProfileElement))
  : gmap Z () :=
  {[ 2 := (); 5 := () ]}.

Definition account (policy : Z) : CanAccItem :=
  {| policynum := policy; canacc_cell := λ _, 0%Q |}.

(** Two account rows with two policy numbers, and two with one. *)
Definition canacc_df : list CanAccItem := [account 7; account 8].
Definition canacc_df_one_policy : list CanAccItem := [account 7; account 7].

Definition one_item : list Gul.Item := [gul_item 1 1 100 11 21].

Definition fm_row (i : nat) (item level layer : Z) : Fm.Row :=
  {| Fm.item_id := item; Fm.canloc_id := 1; Fm.level_id := level;
     Fm.layer_id := layer; Fm.agg_id := 1; Fm.policytc_id := 0;
     Fm.col_deductible := CFloat 0; Fm.col_limit := CFloat 0;
     Fm.col_share := CFloat 0; Fm.col_deductible_type := CStr "B";
     Fm.col_calcrule_id := CInt 2; Fm.tiv := 100; Fm.index := i |}.

(** The frame of one item, two levels and two layers. *)
Definition fm_df0 : list Fm.Row :=
  [fm_row 0 1 1 1; fm_row 1 1 2 1; fm_row 2 1 2 2].

(** Rule functions: the limit is the TIV, the calculation rule depends on
    the layer, the rest is constant. *)
Definition get_limit : RuleFn () :=
  λ _ _ _ fm_df i, (λ r, CFloat (Fm.tiv r)) <$> fm_df !! i.
Definition get_deductible : RuleFn () := λ _ _ _ _ _, Some (CFloat 0).
Definition get_deductible_type : RuleFn () := λ _ _ _ _ _, Some (CStr "B").
Definition get_share : RuleFn () := λ _ _ _ _ _, Some (CFloat 1).
Definition get_calc_rule : RuleFn () :=
  λ _ _ _ fm_df i, (λ r, CInt (Fm.layer_id r + 1)) <$> fm_df !! i.

(** A share rule that raises at the row with index 1. *)
Definition get_share_raising : RuleFn () :=
  λ _ _ _ _ i, if decide (i = 1%nat) then None else Some (CFloat 1).

Definition gfmt : gmap Z () := grouped_fm_terms [cep; ∅].

Definition begin : State () :=
  start get_limit get_deductible get_deductible_type get_share get_calc_rule
    gfmt canexp_df canacc_df fm_df0.

Definition begin_raising : State () :=
  start get_limit get_deductible get_deductible_type get_share_raising
    get_calc_rule gfmt canexp_df canacc_df fm_df0.

(** The coordinating thread starts the five workers and reaches the join. *)
Definition start_all : list Event := replicate 6 EvMain.

(** It passes the join, merges five results and returns. *)
Definition join_and_merge : list Event := replicate 7 EvMain.

(** Worker 0 computes all five columns. *)
Definition one_worker : list Event :=
  start_all ++ replicate 35 (EvWorker 0) ++ join_and_merge.

(** Worker 0 claims the limit, worker 1 claims the deductible and publishes
    it first; worker 0 does the rest. *)
Definition two_workers : list Event :=
  start_all ++ [EvWorker 0; EvWorker 0] ++ replicate 7 (EvWorker 1)
  ++ replicate 26 (EvWorker 0) ++ join_and_merge.

(** Every worker claims one column; the worker of the share dies at its
    second row, the others publish and leave. *)
Definition one_raises : list Event :=
  start_all ++ mjoin (replicate 2 (EvWorker <$> seq 0 5))
  ++ replicate 2 (EvWorker 3)
  ++ (w ← [0; 1; 2; 4]%nat; replicate 7 (EvWorker w)).

(** SIGINT arrives when worker 0 has done one row of the limit. *)
Definition interrupted : list Event :=
  [EvMain; EvWorker 0; EvWorker 0; EvWorker 0; EvSigint].

(** What is left of the run after the interrupt: worker 0 finishes, the
    handler has joined it and fails on the worker that was not started. *)
Definition after_interrupt : list Event :=
  replicate 5 (EvWorker 0) ++ [EvMain; EvMain].

End Example.

(** * Properties *)

Module GulFacts.
Import Gul.

Lemma emitted_app n ps qs :
  emitted n (ps ++ qs) = emitted n ps ++ emitted (n + Z.of_nat (length ps)) qs.
Proof.
  unfold emitted. rewrite imap_app. f_equal.
  apply imap_ext. intros i p _. simpl. f_equal. lia.
Qed.

Lemma emitted_length n ps : length (emitted n ps) = length ps.
Proof. unfold emitted. by rewrite length_imap. Qed.

(** The inner loop appends the rows of the matching fields with a positive
    TIV, numbered on from [item_id]. *)
Lemma tiv_loop_emits canexp_item keys_item fs st :
  let ps := filter (λ p, (0 < pair_tiv p)%Q)
                   ((λ f, (keys_item, canexp_item, f)) <$> fs) in
  foldl (tiv_step canexp_item keys_item) st fs
  = {| st_item_id := st_item_id st + Z.of_nat (length ps);
       st_gulm_df := st_gulm_df st ++ emitted (st_item_id st) ps |}.
Proof.
  cbv zeta. revert st. induction fs as [|f fs IH]; intros st.
  - destruct st; simpl. f_equal; [lia | by rewrite app_nil_r].
  - cbn [foldl]. rewrite IH. clear IH. rewrite fmap_cons, filter_cons.
    unfold tiv_step. cbv zeta.
    change (canexp_cell canexp_item (lower (ProfileElementName f)))
      with (pair_tiv (keys_item, canexp_item, f)).
    destruct (decide (0 < pair_tiv (keys_item, canexp_item, f))%Q)
      as [Hpos|Hneg]; [|done].
    cbn [st_item_id st_gulm_df length]. f_equal; [lia|].
    rewrite <- app_assoc. f_equal.
    unfold emitted. cbn [imap app]. f_equal.
    + unfold item_of_pair, pair_tiv. cbn [fst snd]. f_equal; lia.
    + apply imap_ext. intros i p _. simpl. f_equal. lia.
Qed.

Lemma keys_loop_emits canexp_df tiv_fields keys_df st st' :
  keys_loop canexp_df tiv_fields keys_df st = (inr (), st') →
  let ps := positive_pairs canexp_df tiv_fields keys_df in
  st' = {| st_item_id := st_item_id st + Z.of_nat (length ps);
           st_gulm_df := st_gulm_df st ++ emitted (st_item_id st) ps |}.
Proof.
  cbv zeta. revert st. induction keys_df as [|k ks IH]; intros st.
  - intros [= <-]. destruct st; simpl. f_equal; [lia | by rewrite app_nil_r].
  - cbn [keys_loop]. unfold keys_step.
    assert (positive_pairs canexp_df tiv_fields (k :: ks)
            = filter (λ p, (0 < pair_tiv p)%Q)
                match select_row_id canexp_df k with
                | [] => []
                | c :: _ => (λ f, (k, c, f)) <$> tiv_field_matches tiv_fields k
                end
              ++ positive_pairs canexp_df tiv_fields ks) as ->.
    { unfold positive_pairs, scanned_pairs. by rewrite bind_cons, filter_app. }
    destruct (select_row_id canexp_df k) as [|c cs] eqn:Hsel; [done|].
    intros Hloop. apply IH in Hloop. rewrite Hloop. clear Hloop IH.
    rewrite tiv_loop_emits. cbn [st_item_id st_gulm_df].
    rewrite length_app, emitted_app.
    f_equal; [lia|]. by rewrite <- app_assoc.
Qed.

Lemma select_row_id_nil canexp_df k :
  select_row_id canexp_df k = [] ↔ unmatched canexp_df k.
Proof.
  unfold select_row_id, unmatched. split.
  - intros Hnil r Hr Heq.
    assert (r ∈ filter (λ r, row_id r = locid k) canexp_df) as Hin
      by (apply list_elem_of_filter; done).
    rewrite Hnil in Hin. by apply not_elem_of_nil in Hin.
  - intros Hun. induction canexp_df as [|r rs IH]; [done|].
    rewrite filter_cons. destruct (decide (row_id r = locid k)) as [Heq|_].
    + exfalso. eapply Hun; [|exact Heq]. by left.
    + apply IH. intros r' Hr'. apply Hun. by right.
Qed.

Lemma first_unmatched canexp_df keys_df :
  (∃ k, k ∈ keys_df ∧ unmatched canexp_df k) →
  ∃ before k after, keys_df = before ++ k :: after
    ∧ Forall (λ k', ¬ unmatched canexp_df k') before ∧ unmatched canexp_df k.
Proof.
  induction keys_df as [|k0 ks IH]; intros (k & Hin & Hun).
  - by apply not_elem_of_nil in Hin.
  - destruct (select_row_id canexp_df k0) as [|c cs] eqn:Hsel.
    + exists [], k0, ks. split; [done|]. split; [constructor|].
      by apply select_row_id_nil.
    + destruct IH as (before & k' & after & -> & Hbefore & Hk').
      { apply elem_of_cons in Hin as [->|Hin].
        - apply select_row_id_nil in Hun. congruence.
        - eauto. }
      exists (k0 :: before), k', after. split; [done|]. split; [|done].
      constructor; [|done]. rewrite <- select_row_id_nil. congruence.
Qed.

Lemma keys_loop_raises canexp_df tiv_fields before k after st :
  Forall (λ k', ¬ unmatched canexp_df k') before →
  unmatched canexp_df k →
  ∃ st', keys_loop canexp_df tiv_fields (before ++ k :: after) st
         = (inl (OasisException k), st')
         ∧ (before = [] → st' = st).
Proof.
  intros Hbefore Hk. revert st.
  induction Hbefore as [|k0 before Hk0 _ IH]; intros st.
  - exists st. split; [|done]. cbn [app keys_loop]. unfold keys_step.
    apply select_row_id_nil in Hk. by rewrite Hk.
  - cbn [app keys_loop]. unfold keys_step.
    destruct (select_row_id canexp_df k0) as [|c cs] eqn:Hsel.
    { apply select_row_id_nil in Hsel. done. }
    destruct (IH (foldl (tiv_step c k0) st (tiv_field_matches tiv_fields k0)))
      as (st' & -> & _).
    exists st'. done.
Qed.

(** The loop goes through when every lookup row is joined. *)
Lemma keys_loop_returns canexp_df tiv_fields keys_df st :
  Forall (λ k, ¬ unmatched canexp_df k) keys_df →
  ∃ st', keys_loop canexp_df tiv_fields keys_df st = (inr (), st').
Proof.
  intros Hall. revert st. induction Hall as [|k ks Hk _ IH]; intros st.
  - by exists st.
  - cbn [keys_loop]. unfold keys_step.
    destruct (select_row_id canexp_df k) as [|c cs] eqn:Hsel.
    { by apply select_row_id_nil in Hsel. }
    apply IH.
Qed.

Lemma load_returns sorted_dicts cep canexp_df keys_df :
  Forall (λ k, ¬ unmatched canexp_df k) keys_df →
  ∃ gulm_df,
    load_gul_master_data_frame sorted_dicts cep canexp_df keys_df
    = inr (canexp_df, gulm_df).
Proof.
  intros Hall. unfold load_gul_master_data_frame.
  destruct (keys_loop_returns canexp_df (tiv_fields_of sorted_dicts cep)
              keys_df init Hall) as [st ->].
  by exists (st_gulm_df st).
Qed.

(** C5: the run returns when every lookup row is joined; a scanned pair
    whose TIV is greater than 0 appends exactly one item and a pair whose
    TIV is at most 0 leaves the frame as it is; and the frame that is
    returned holds, in scan order, one item for each scanned (lookup row,
    matching TIV field) pair with a TIV greater than 0, so there are as
    many items as such pairs. *)
Theorem joiner_one_item_per_positive_pair sorted_dicts cep canexp_df keys_df :
  let pairs := scanned_pairs canexp_df (tiv_fields_of sorted_dicts cep) keys_df in
  let positive := filter (λ p, (0 < pair_tiv p)%Q) pairs in
  (Forall (λ k, ¬ unmatched canexp_df k) keys_df →
   ∃ gulm_df,
     load_gul_master_data_frame sorted_dicts cep canexp_df keys_df
     = inr (canexp_df, gulm_df))
  ∧ (∀ c k st f, (0 < pair_tiv (k, c, f))%Q →
       tiv_step c k st f
       = {| st_item_id := st_item_id st + 1;
            st_gulm_df := st_gulm_df st
                          ++ [item_of_pair (st_item_id st + 1) (k, c, f)] |})
  ∧ (∀ c k st f, (pair_tiv (k, c, f) <= 0)%Q → tiv_step c k st f = st)
  ∧ (∀ canexp_out gulm_df,
       load_gul_master_data_frame sorted_dicts cep canexp_df keys_df
         = inr (canexp_out, gulm_df) →
       Forall2 (λ g p, g = item_of_pair (item_id g) p) gulm_df positive
       ∧ Forall (λ g, (0 < tiv g)%Q) gulm_df
       ∧ length gulm_df = length positive).
Proof.
  intros pairs positive.
  split; [apply load_returns|]. split; [|split].
  - intros c k st f Hpos. unfold tiv_step. cbv zeta.
    change (canexp_cell c (lower (ProfileElementName f)))
      with (pair_tiv (k, c, f)).
    by destruct (decide (0 < pair_tiv (k, c, f))%Q).
  - intros c k st f Hle. unfold tiv_step. cbv zeta.
    change (canexp_cell c (lower (ProfileElementName f)))
      with (pair_tiv (k, c, f)).
    destruct (decide (0 < pair_tiv (k, c, f))%Q) as [Hpos|]; [|done].
    exfalso. by apply (Qlt_not_le _ _ Hpos).
  - intros canexp_out gulm_df Hload.
    unfold load_gul_master_data_frame in Hload.
    destruct (keys_loop canexp_df (tiv_fields_of sorted_dicts cep) keys_df init)
      as [[e|[]] st] eqn:Hloop; [done|].
    injection Hload as _ <-.
    apply keys_loop_emits in Hloop. subst st. cbn [st_gulm_df init app].
    fold pairs. change (positive_pairs _ _ _) with positive.
    assert (Forall (λ p, (0 < pair_tiv p)%Q) positive) as Hpos.
    { apply Forall_forall. intros p Hp. unfold positive in Hp.
      by apply list_elem_of_filter in Hp as [? _]. }
    split; [|split; [|apply emitted_length]].
    + clear Hpos. unfold emitted. generalize (st_item_id init) as n.
      induction positive as [|p ps IH]; intros n; [constructor|].
      cbn [imap]. constructor; [done|].
      erewrite imap_ext; [apply (IH (n + 1))|].
      intros i q _. simpl. f_equal. lia.
    + unfold emitted. generalize (st_item_id init) as n.
      induction Hpos as [|p ps Hp _ IH]; intros n; [constructor|].
      cbn [imap]. constructor; [done|].
      erewrite imap_ext; [apply (IH (n + 1))|].
      intros i q _. simpl. f_equal. lia.
Qed.

(** C8: the run returns when every lookup row is joined, and on every run
    that returns the item ids are 1, 2, ..., N in row order, the i-th item
    is the one of the i-th scanned pair with a positive TIV, and every item
    has its item id as coverage id and as group id. *)
Theorem joiner_item_ids_contiguous sorted_dicts cep canexp_df keys_df :
  (Forall (λ k, ¬ unmatched canexp_df k) keys_df →
   ∃ gulm_df,
     load_gul_master_data_frame sorted_dicts cep canexp_df keys_df
     = inr (canexp_df, gulm_df))
  ∧ (∀ canexp_out gulm_df,
       load_gul_master_data_frame sorted_dicts cep canexp_df keys_df
         = inr (canexp_out, gulm_df) →
       item_id <$> gulm_df = (λ i, Z.of_nat i + 1) <$> seq 0 (length gulm_df)
       ∧ NoDup (item_id <$> gulm_df)
       ∧ (∀ (i : nat) p,
            positive_pairs canexp_df (tiv_fields_of sorted_dicts cep) keys_df
              !! i = Some p →
            gulm_df !! i = Some (item_of_pair (Z.of_nat i + 1) p))
       ∧ Forall (λ g, coverage_id g = item_id g ∧ group_id g = item_id g)
           gulm_df).
Proof.
  split; [apply load_returns|].
  intros canexp_out gulm_df Hload. unfold load_gul_master_data_frame in Hload.
  destruct (keys_loop canexp_df (tiv_fields_of sorted_dicts cep) keys_df init)
    as [[e|[]] st] eqn:Hloop; [done|].
  injection Hload as _ <-.
  apply keys_loop_emits in Hloop. subst st. cbn [st_gulm_df st_item_id init app].
  set (ps := positive_pairs _ _ _). unfold emitted.
  assert (item_id <$> imap (λ i p, item_of_pair (0 + Z.of_nat i + 1) p) ps
          = (λ i, Z.of_nat i + 1) <$> seq 0 (length ps)) as Hids.
  { apply list_eq. intros i.
    rewrite !list_lookup_fmap, list_lookup_imap.
    destruct (ps !! i) as [p|] eqn:Hp; simpl.
    + rewrite lookup_seq_lt by (by eapply lookup_lt_Some). done.
    + rewrite lookup_seq_ge by (by apply lookup_ge_None). done. }
  split; [by rewrite length_imap|]. split; [|split].
  - rewrite Hids. apply NoDup_fmap_2; [|apply NoDup_seq].
    intros i j Hij. lia.
  - intros i p Hp. by rewrite list_lookup_imap, Hp.
  - apply Forall_forall. intros g Hg.
    apply list_elem_of_lookup in Hg as [i Hg].
    rewrite list_lookup_imap in Hg.
    destruct (ps !! i); simplify_eq/=. done.
Qed.

(** C7: when some lookup row matches no canonical record, the run raises the
    exception that is formatted with the first such row, so no frame is
    returned; when that row is the first lookup row, the exception is raised
    in the state the loop starts in, with no item appended. *)
Theorem joiner_missing_record_aborts sorted_dicts cep canexp_df keys_df :
  (∃ k, k ∈ keys_df ∧ unmatched canexp_df k) →
  ∃ before k after,
    keys_df = before ++ k :: after
    ∧ Forall (λ k', ¬ unmatched canexp_df k') before
    ∧ unmatched canexp_df k
    ∧ load_gul_master_data_frame sorted_dicts cep canexp_df keys_df
      = inl (OasisException k)
    ∧ (before = [] →
       keys_loop canexp_df (tiv_fields_of sorted_dicts cep) keys_df init
       = (inl (OasisException k), init)
       ∧ st_gulm_df init = []).
Proof.
  intros Hex.
  destruct (first_unmatched _ _ Hex) as (before & k & after & -> & Hbefore & Hk).
  exists before, k, after. split; [done|]. split; [done|]. split; [done|].
  destruct (keys_loop_raises canexp_df (tiv_fields_of sorted_dicts cep)
              before k after init Hbefore Hk) as (st' & Hloop & Hst).
  unfold load_gul_master_data_frame. rewrite Hloop. split; [done|].
  intros Hnil. rewrite (Hst Hnil). done.
Qed.

End GulFacts.
Module GrouperFacts.
Import Grouper.

Lemma cell_eqb_refl a : cell_eqb a a = true.
Proof.
  destruct a; simpl; [|apply Z.eqb_refl|apply String.eqb_refl|done].
  apply Qeq_bool_iff. reflexivity.
Qed.

Lemma cell_eqb_sym a b : cell_eqb a b = cell_eqb b a.
Proof.
  destruct a, b; simpl; try done.
  - apply eq_true_iff_eq. rewrite !Qeq_bool_iff. split; intros H; by symmetry.
  - apply Z.eqb_sym.
  - apply String.eqb_sym.
Qed.

Lemma cell_eqb_trans a b c :
  cell_eqb a b = true → cell_eqb b c = true → cell_eqb a c = true.
Proof.
  destruct a, b, c; simpl; try done.
  - rewrite !Qeq_bool_iff. intros H1 H2. by rewrite H1.
  - rewrite !Z.eqb_eq. congruence.
  - rewrite !String.eqb_eq. congruence.
Qed.

Lemma terms_eqb_refl t : terms_eqb t t = true.
Proof.
  destruct t as [[[[a1 a2] a3] a4] a5]. simpl. by rewrite !cell_eqb_refl.
Qed.

Lemma terms_eqb_sym s t : terms_eqb s t = terms_eqb t s.
Proof.
  destruct s as [[[[a1 a2] a3] a4] a5], t as [[[[b1 b2] b3] b4] b5]. simpl.
  by rewrite (cell_eqb_sym a1), (cell_eqb_sym a2), (cell_eqb_sym a3),
    (cell_eqb_sym a4), (cell_eqb_sym a5).
Qed.

Lemma terms_eqb_trans s t u :
  terms_eqb s t = true → terms_eqb t u = true → terms_eqb s u = true.
Proof.
  destruct s as [[[[a1 a2] a3] a4] a5], t as [[[[b1 b2] b3] b4] b5],
    u as [[[[c1 c2] c3] c4] c5]. simpl.
  rewrite !andb_true_iff.
  intros ((((H1 & H2) & H3) & H4) & H5) ((((G1 & G2) & G3) & G4) & G5).
  repeat split; eauto using cell_eqb_trans.
Qed.

(** Equal tuples cannot be told apart by [terms_eqb]. *)
Lemma terms_eqb_congr s t u :
  terms_eqb s t = true → terms_eqb s u = terms_eqb t u.
Proof.
  intros Hst. destruct (terms_eqb t u) eqn:Htu.
  - eauto using terms_eqb_trans.
  - destruct (terms_eqb s u) eqn:Hsu; [|done].
    rewrite terms_eqb_sym in Hst.
    by rewrite (terms_eqb_trans _ _ _ Hst Hsu) in Htu.
Qed.

Lemma seen_id_congr seen s t :
  terms_eqb s t = true → seen_id seen s = seen_id seen t.
Proof.
  intros Hst. induction seen as [|[t' id] seen IH]; [done|].
  simpl. by rewrite (terms_eqb_congr _ _ _ Hst), IH.
Qed.

Lemma seen_id_app_Some seen more t id :
  seen_id seen t = Some id → seen_id (seen ++ more) t = Some id.
Proof.
  induction seen as [|[t' id'] seen IH]; [done|]. simpl.
  by destruct (terms_eqb t t').
Qed.

Lemma seen_id_snoc_new seen t id :
  seen_id seen t = None → seen_id (seen ++ [(t, id)]) t = Some id.
Proof.
  induction seen as [|[t' id'] seen IH]; simpl.
  - by rewrite terms_eqb_refl.
  - by destruct (terms_eqb t t').
Qed.

Lemma seen_id_snoc_other seen t u id :
  terms_eqb t u = false → seen_id (seen ++ [(u, id)]) t = seen_id seen t.
Proof.
  intros Hne. induction seen as [|[t' id'] seen IH]; simpl.
  - by rewrite Hne.
  - by destruct (terms_eqb t t').
Qed.

(** A recorded id belongs to a recorded tuple equal to the one looked up. *)
Lemma seen_id_Some seen t id :
  seen_id seen t = Some id →
  ∃ t', (t', id) ∈ seen ∧ terms_eqb t t' = true.
Proof.
  induction seen as [|[t' id'] seen IH]; [done|]. simpl.
  destruct (terms_eqb t t') eqn:Heq.
  - intros [= ->]. exists t'. split; [left|done].
  - intros H. destruct (IH H) as (u & Hin & Hu). exists u. split; [by right|done].
Qed.

Lemma seen_id_None seen t t' id :
  seen_id seen t = None → (t', id) ∈ seen → terms_eqb t t' = false.
Proof.
  induction seen as [|[u id'] seen IH]; [by intros _ ?%not_elem_of_nil|].
  simpl. destruct (terms_eqb t u) eqn:Heq; [done|].
  intros Hnone [[= -> ->]|Hin]%elem_of_cons; [done|]. by apply IH.
Qed.

Lemma recorded_nil : recorded [] 1.
Proof. split; [done|done|]. intros i j s t a b Hi. by rewrite lookup_nil in Hi. Qed.

Lemma recorded_snoc seen next t :
  recorded seen next → seen_id seen t = None →
  recorded (seen ++ [(t, next)]) (next + 1).
Proof.
  intros [Hids Hnext Honce] Hnew. split.
  - rewrite fmap_app, length_app, Hids. cbn [length fmap list_fmap snd].
    rewrite Nat.add_1_r, seq_S, fmap_app. simpl. by rewrite Hnext.
  - rewrite length_app. simpl. lia.
  - intros i j s u a b Hi Hj Heq.
    assert (∀ k v c, (seen ++ [(t, next)]) !! k = Some (v, c) →
              (k < length seen)%nat ∧ seen !! k = Some (v, c)
              ∨ k = length seen ∧ v = t) as Hcase.
    { intros k v c Hk. destruct (decide (k < length seen)%nat) as [Hlt|Hge].
      - left. by rewrite lookup_app_l in Hk.
      - right. rewrite lookup_app_r in Hk by lia.
        destruct (k - length seen)%nat as [|n] eqn:Hd; [|by destruct n].
        simpl in Hk. injection Hk as <- _. split; [lia|done]. }
    destruct (Hcase _ _ _ Hi) as [[Hil Hi']|[-> ->]],
             (Hcase _ _ _ Hj) as [[Hjl Hj']|[-> ->]].
    + eauto.
    + apply list_elem_of_lookup_2 in Hi'.
      rewrite terms_eqb_sym in Heq.
      by rewrite (seen_id_None _ _ _ _ Hnew Hi') in Heq.
    + apply list_elem_of_lookup_2 in Hj'.
      by rewrite (seen_id_None _ _ _ _ Hnew Hj') in Heq.
    + done.
Qed.

Lemma recorded_id_bounds seen next t id :
  recorded seen next → (t, id) ∈ seen → 1 ≤ id < next.
Proof.
  intros [Hids Hnext _] Hin.
  assert (id ∈ seen.*2) as Hid by (apply list_elem_of_fmap; by exists (t, id)).
  rewrite Hids in Hid. apply list_elem_of_fmap in Hid as (i & -> & Hi).
  apply elem_of_seq in Hi. lia.
Qed.

Lemma recorded_id_inj seen next s t id :
  recorded seen next → (s, id) ∈ seen → (t, id) ∈ seen → s = t.
Proof.
  intros [Hids _ _] [i Hi]%list_elem_of_lookup [j Hj]%list_elem_of_lookup.
  assert (∀ k v, seen !! k = Some (v, id) → Z.of_nat k + 1 = id) as Hpos.
  { intros k v Hk.
    assert (seen.*2 !! k = Some id) as Hk2 by (by rewrite list_lookup_fmap, Hk).
    rewrite Hids, list_lookup_fmap in Hk2.
    rewrite lookup_seq_lt in Hk2 by (by eapply lookup_lt_Some).
    by injection Hk2. }
  assert (i = j) as -> by (apply Hpos in Hi, Hj; lia).
  congruence.
Qed.

Lemma scan_length rows seen next : length (scan rows seen next) = length rows.
Proof.
  revert seen next. induction rows as [|r rows IH]; intros seen next; [done|].
  simpl. destruct (seen_id seen (terms_of r)); simpl; by rewrite IH.
Qed.

(** Every row is assigned the id that the mapping left by the scan records
    for its tuple. *)
Lemma scan_final rows seen next :
  recorded seen next →
  (∃ next', recorded (final_seen rows seen next) next')
  ∧ (∀ t id, seen_id seen t = Some id →
       seen_id (final_seen rows seen next) t = Some id)
  ∧ Forall2 (λ r id, seen_id (final_seen rows seen next) (terms_of r) = Some id)
      rows (scan rows seen next).
Proof.
  revert seen next. induction rows as [|r rows IH]; intros seen next Hrec.
  - simpl. split; [by exists next|]. split; [done|constructor].
  - simpl. destruct (seen_id seen (terms_of r)) as [id|] eqn:Hid.
    + destruct (IH seen next Hrec) as (Hrec' & Hstable & Hall).
      split; [done|]. split; [done|]. constructor; [|done]. by apply Hstable.
    + destruct (IH _ _ (recorded_snoc _ _ _ Hrec Hid)) as (Hrec' & Hstable & Hall).
      split; [done|]. split.
      * intros t id Ht. apply Hstable. by apply seen_id_app_Some.
      * constructor; [|done]. apply Hstable. by apply seen_id_snoc_new.
Qed.

Lemma seen_id_same seen next s t a b :
  recorded seen next → seen_id seen s = Some a → seen_id seen t = Some b →
  a = b ↔ terms_eqb s t = true.
Proof.
  intros Hrec Hs Ht. split.
  - intros ->.
    destruct (seen_id_Some _ _ _ Hs) as (s' & Hs' & Hss').
    destruct (seen_id_Some _ _ _ Ht) as (t' & Ht' & Htt').
    rewrite (recorded_id_inj _ _ _ _ _ Hrec Hs' Ht') in Hss'.
    rewrite terms_eqb_sym in Htt'. eauto using terms_eqb_trans.
  - intros Heq. rewrite (seen_id_congr _ _ _ Heq) in Hs. congruence.
Qed.

Lemma max_id_nonneg ids : 0 ≤ max_id ids.
Proof. induction ids; simpl; lia. Qed.

(** Ids are minted in ascending order: an id is at most one more than the
    ids handed out so far, and exactly one more when the tuple is new. *)
Lemma scan_growth rows seen next (i : nat) r id :
  recorded seen next →
  rows !! i = Some r → scan rows seen next !! i = Some id →
  let before := Z.max (next - 1) (max_id (take i (scan rows seen next))) in
  1 ≤ id ≤ before + 1
  ∧ (seen_id seen (terms_of r) = None →
     (∀ (j : nat) rj, (j < i)%nat → rows !! j = Some rj →
        terms_eqb (terms_of r) (terms_of rj) = false) →
     id = before + 1).
Proof.
  cbv zeta. revert seen next i.
  induction rows as [|r0 rows IH]; intros seen next i Hrec Hr Hid; [done|].
  pose proof (recorded_next _ _ Hrec) as Hnext.
  simpl in Hid |- *.
  destruct (seen_id seen (terms_of r0)) as [id0|] eqn:Hid0.
  - destruct (seen_id_Some _ _ _ Hid0) as (t0 & Hin0 & _).
    pose proof (recorded_id_bounds _ _ _ _ Hrec Hin0) as Hb0.
    destruct i as [|i]; simpl in Hr, Hid |- *.
    + simplify_eq. split; [lia|]. congruence.
    + destruct (IH seen next i Hrec Hr Hid) as [Hle Hnew].
      pose proof (max_id_nonneg (take i (scan rows seen next))).
      split; [lia|]. intros Hnone Hfresh.
      rewrite Hnew; [lia|done|].
      intros j rj Hj Hrj. apply (Hfresh (S j)); [lia|done].
  - destruct i as [|i]; simpl in Hr, Hid |- *.
    + simplify_eq. split; lia.
    + pose proof (recorded_snoc _ _ _ Hrec Hid0) as Hrec'.
      destruct (IH _ _ i Hrec' Hr Hid) as [Hle Hnew].
      pose proof (max_id_nonneg
        (take i (scan rows (seen ++ [(terms_of r0, next)]) (next + 1)))).
      split; [lia|]. intros Hnone Hfresh.
      rewrite Hnew; [lia| |].
      * rewrite seen_id_snoc_other; [done|]. by apply (Hfresh 0%nat); [lia|].
      * intros j rj Hj Hrj. apply (Hfresh (S j)); [lia|done].
Qed.

(** The assignment at the end of [load_fm_master_data_frame] goes through
    on a frame whose index is the row position, and writes the ids of the
    scan into [policytc_id], leaving every other column as it is. *)
Lemma assign_policytc_id_returns (fm_df : list Fm.Row) :
  Fm.index <$> fm_df = seq 0 (length fm_df) →
  ∃ df, assign_policytc_id fm_df = Some df
    ∧ Fm.policytc_id <$> df = scan fm_df [] 1
    ∧ terms_of <$> df = terms_of <$> fm_df
    ∧ length df = length fm_df.
Proof.
  intros Hindex.
  set (ids := scan fm_df [] 1).
  assert (length ids = length fm_df) as Hlen by apply scan_length.
  exists (zip_with (λ r id, Fm.set_policytc_id id r) fm_df ids).
  split; [|split; [|split]].
  - apply mapM_Some. apply Forall2_same_length_lookup_2.
    { rewrite length_zip_with. lia. }
    intros i r r' Hr Hr'.
    apply lookup_zip_with_Some in Hr' as (r1 & id & -> & Hr1 & Hid).
    assert (r1 = r) as -> by congruence.
    assert (Fm.index r = i) as ->.
    { assert ((Fm.index <$> fm_df) !! i = Some (Fm.index r)) as Hi
        by (by rewrite list_lookup_fmap, Hr).
      rewrite Hindex in Hi. apply lookup_seq in Hi as [? _]. lia. }
    unfold get_policytc_id. fold ids. by rewrite Hid.
  - apply list_eq. intros i. rewrite list_lookup_fmap, lookup_zip_with.
    destruct (fm_df !! i) as [r|] eqn:Hr; simpl.
    + by destruct (ids !! i).
    + symmetry. apply lookup_ge_None. rewrite Hlen. by apply lookup_ge_None.
  - apply list_eq. intros i. rewrite !list_lookup_fmap, lookup_zip_with.
    destruct (fm_df !! i) as [r|] eqn:Hr; simpl; [|done].
    destruct (ids !! i) as [id|] eqn:Hid; [done|].
    apply lookup_ge_None in Hid. apply lookup_lt_Some in Hr. lia.
  - rewrite length_zip_with. lia.
Qed.

(** C6: in the scan of the populated frame every row gets an id; two rows
    get the same id exactly when their 5-tuples are equal; ids start at 1,
    and a row whose tuple no earlier row has gets the id after the largest
    id of the earlier rows, so the ids are minted 1, 2, 3, ... in first-seen
    order of the tuples; the assignment writes these ids, in row order,
    into the policytc_id column of the frame. *)
Theorem policytc_ids_group_equal_terms (fm_df : list Fm.Row) :
  (Fm.index <$> fm_df = seq 0 (length fm_df) →
   ∃ df, assign_policytc_id fm_df = Some df
     ∧ Fm.policytc_id <$> df = scan fm_df [] 1
     ∧ terms_of <$> df = terms_of <$> fm_df
     ∧ length df = length fm_df)
  ∧ (∀ (i : nat) r, fm_df !! i = Some r → is_Some (get_policytc_id fm_df i))
  ∧ (∀ (i j : nat) ri rj a b,
       fm_df !! i = Some ri → fm_df !! j = Some rj →
       get_policytc_id fm_df i = Some a → get_policytc_id fm_df j = Some b →
       a = b ↔ terms_eqb (terms_of ri) (terms_of rj) = true)
  ∧ (∀ (i : nat) r a,
       fm_df !! i = Some r → get_policytc_id fm_df i = Some a →
       let before := max_id (take i (scan fm_df [] 1)) in
       1 ≤ a ≤ before + 1
       ∧ ((∀ (j : nat) rj, (j < i)%nat → fm_df !! j = Some rj →
             terms_eqb (terms_of r) (terms_of rj) = false) →
          a = before + 1)).
Proof.
  split; [apply assign_policytc_id_returns|].
  unfold get_policytc_id.
  destruct (scan_final fm_df [] 1 recorded_nil) as ([next' Hrec] & _ & Hall).
  split; [|split].
  - intros i r Hr. apply lookup_lt_is_Some. rewrite scan_length.
    by eapply lookup_lt_Some.
  - intros i j ri rj a b Hi Hj Ha Hb.
    pose proof (Forall2_lookup_lr _ _ _ _ _ _ Hall Hi Ha) as Hsa.
    pose proof (Forall2_lookup_lr _ _ _ _ _ _ Hall Hj Hb) as Hsb.
    exact (seen_id_same _ _ _ _ _ _ Hrec Hsa Hsb).
  - intros i r a Hr Ha.
    destruct (scan_growth fm_df [] 1 i r a recorded_nil Hr Ha) as [Hle Hnew].
    pose proof (max_id_nonneg (take i (scan fm_df [] 1))).
    cbv zeta. split; [lia|]. intros Hfresh. rewrite Hnew; [lia|done|done].
Qed.

End GrouperFacts.
Module FmFacts.
Import Fm.

Section Products.
Context {A B : Type}.
Implicit Types (xs : list A) (ys : list B).

Lemma product_cons x xs ys :
  product (x :: xs) ys = ((λ y, (x, y)) <$> ys) ++ product xs ys.
Proof.
  unfold product. rewrite bind_cons. f_equal.
Qed.

Lemma product_nil_r xs : product xs ([] : list B) = [].
Proof. induction xs as [|x xs IH]; [done|]. by rewrite product_cons, IH. Qed.

Lemma product_app xs1 xs2 ys :
  product (xs1 ++ xs2) ys = product xs1 ys ++ product xs2 ys.
Proof. unfold product. by rewrite bind_app. Qed.

Lemma length_product xs ys :
  length (product xs ys) = (length xs * length ys)%nat.
Proof.
  induction xs as [|x xs IH]; [done|].
  rewrite product_cons, length_app, length_fmap, IH. simpl. lia.
Qed.

(** The slice [product(xs ++ [x], ys)[-len(ys):]] is the block of [x]. *)
Lemma last_n_product xs x ys :
  last_n (length ys) (product (xs ++ [x]) ys) = (λ y, (x, y)) <$> ys.
Proof.
  unfold last_n. rewrite product_app, product_cons.
  change (product [] ys) with (@nil (A * B)). rewrite app_nil_r.
  destruct (decide (length ys = 0%nat)) as [Hz|Hnz].
  - apply nil_length_inv in Hz. subst ys. by rewrite product_nil_r.
  - rewrite length_app, length_fmap.
    replace (length (product xs ys) + length ys - length ys)%nat
      with (length (product xs ys)) by lia.
    by rewrite drop_app_length.
Qed.

Lemma last_n_nil n : last_n n ([] : list A) = [].
Proof. unfold last_n. case_decide; [done|]. by rewrite drop_nil. Qed.
End Products.

Lemma from_to_S first n : from_to first (S n) = from_to first n ++ [Z.of_nat n + first].
Proof. unfold from_to. by rewrite seq_S, fmap_app. Qed.

Lemma length_from_to first n : length (from_to first n) = n.
Proof. unfold from_to. by rewrite length_fmap, length_seq. Qed.

Lemma from_to_cons first n : from_to first (S n) = first :: from_to (first + 1) n.
Proof.
  unfold from_to. cbn [seq fmap list_fmap]. f_equal.
  rewrite <- fmap_S_seq, <- list_fmap_compose.
  apply list_fmap_ext. intros i x _. simpl. lia.
Qed.

Lemma layer_ids_from_to canacc_df :
  layer_ids_of canacc_df = from_to 1 (length canacc_df).
Proof. unfold layer_ids_of, from_to. by rewrite length_fmap. Qed.

Lemma foldl_max_from_to x n :
  foldl Z.max x (from_to (x + 1) n) = x + Z.of_nat n.
Proof.
  induction n as [|n IH].
  - simpl. lia.
  - rewrite from_to_S, foldl_app, IH. simpl. lia.
Qed.

Lemma py_max_from_to n : py_max (from_to 1 (S n)) = inr (Z.of_nat (S n)).
Proof.
  rewrite from_to_cons. cbn [py_max]. change 2 with (1 + 1). rewrite foldl_max_from_to.
  f_equal. lia.
Qed.

Lemma layer_count_rows canacc_df :
  canacc_df ≠ [] → layer_count canacc_df = inr (Z.of_nat (length canacc_df)).
Proof.
  intros Hne. unfold layer_count. rewrite layer_ids_from_to.
  destruct canacc_df as [|a rest]; [done|]. cbn [length]. apply py_max_from_to.
Qed.

(** In a list without duplicates the rank of the element at position [i] is
    [i + 1]. *)
Lemma level_rank_lookup fm_levels (i : nat) level :
  NoDup fm_levels → fm_levels !! i = Some level →
  level_rank fm_levels level = inr (Z.of_nat i + 1).
Proof.
  intros Hnd Hi. unfold level_rank.
  destruct (filter (λ fml, fml = level) fm_levels) as [|x rest] eqn:Hf.
  - assert (level ∈ filter (λ fml, fml = level) fm_levels) as Hin.
    { apply list_elem_of_filter. split; [done|]. by eapply list_elem_of_lookup_2. }
    rewrite Hf in Hin. by apply not_elem_of_nil in Hin.
  - assert (x ∈ filter (λ fml, fml = level) fm_levels) as Hin
      by (rewrite Hf; left).
    apply list_elem_of_filter in Hin as [-> _].
    destruct (list_find (λ fml, fml = level) fm_levels) as [[j y]|] eqn:Hfind.
    + apply list_find_Some in Hfind as (Hj & -> & _).
      by rewrite (NoDup_lookup _ _ _ _ Hnd Hj Hi).
    + apply list_find_None in Hfind.
      rewrite Forall_forall in Hfind. exfalso. eapply Hfind; [|done].
      by eapply list_elem_of_lookup_2.
Qed.

(** [data_rows] goes through when every level has a rank, and numbers the
    rows on from [i]. *)
Lemma data_rows_ok fm_levels (rank : Z → Z) ps i :
  Forall (λ p : Preset, level_rank fm_levels p.1 = inr (rank p.1)) ps →
  ∃ rows, data_rows fm_levels i ps = inr rows
    ∧ key <$> rows = (λ p, preset_key (rank p.1) p) <$> ps
    ∧ index <$> rows = seq i (length ps).
Proof.
  intros Hps. revert i. induction Hps as [|p ps Hp _ IH]; intros i.
  - by exists [].
  - destruct (IH (S i)) as (rows & Hrows & Hkeys & Hidx).
    cbn [data_rows]. destruct p as [level [[[item canloc] layer] tiv0]].
    unfold data_row. simpl in Hp. rewrite Hp, Hrows.
    eexists. split; [done|]. rewrite !fmap_cons, Hkeys, Hidx. done.
Qed.

Lemma rank_in_lookup fm_levels (i : nat) level :
  NoDup fm_levels → fm_levels !! i = Some level →
  level_rank fm_levels level = inr (rank_in fm_levels level)
  ∧ rank_in fm_levels level = Z.of_nat i + 1.
Proof.
  intros Hnd Hi. unfold rank_in.
  by rewrite (level_rank_lookup _ _ _ Hnd Hi).
Qed.

Lemma rank_in_levels fm_levels :
  NoDup fm_levels →
  rank_in fm_levels <$> fm_levels = from_to 1 (length fm_levels).
Proof.
  intros Hnd. apply list_eq. intros i. unfold from_to.
  rewrite !list_lookup_fmap.
  destruct (fm_levels !! i) as [level|] eqn:Hi; simpl.
  - rewrite lookup_seq_lt by (by eapply lookup_lt_Some). simpl.
    by destruct (rank_in_lookup _ _ _ Hnd Hi) as [_ ->].
  - rewrite lookup_seq_ge by (by apply lookup_ge_None). done.
Qed.

Lemma base_preset_keys (rk : Z → Z) ls gulm_df :
  (λ p : Preset, preset_key (rk p.1) p) <$> base_preset ls gulm_df
  = r ← rk <$> ls; level_block r 1 gulm_df.
Proof.
  unfold base_preset. induction ls as [|x ls IH]; [done|].
  rewrite product_cons, fmap_app, IH, fmap_cons, bind_cons. f_equal.
  unfold gul_tuples, level_block. rewrite <- !list_fmap_compose.
  by apply list_fmap_ext.
Qed.

Lemma extension_keys (rk : Z → Z) layers top gulm_df :
  (λ p : Preset, preset_key (rk p.1) p)
    <$> (relayer <$> product layers ((λ y, (top, y)) <$> gul_tuples gulm_df))
  = layer ← layers; level_block (rk top) layer gulm_df.
Proof.
  induction layers as [|l layers IH]; [done|].
  rewrite product_cons, !fmap_app, IH, bind_cons. f_equal.
  unfold gul_tuples, level_block. rewrite <- !list_fmap_compose.
  by apply list_fmap_ext.
Qed.

Lemma drop_layer_ids n : drop 1 (from_to 1 n) = from_to 2 (n - 1).
Proof.
  destruct n as [|n]; [done|]. rewrite from_to_cons. cbn [drop].
  by replace (S n - 1)%nat with n by lia.
Qed.

(** With at least one account row, [max] does not raise, and the extension
    is empty when there is only one. *)
Lemma preset_data_ok fm_levels gulm_df canacc_df :
  canacc_df ≠ [] →
  preset_data_of fm_levels gulm_df (layer_ids_of canacc_df)
  = inr (base_preset fm_levels gulm_df
         ++ layer_extension (layer_ids_of canacc_df) gulm_df
              (base_preset fm_levels gulm_df)).
Proof.
  intros Hne. unfold preset_data_of.
  pose proof (layer_count_rows _ Hne) as Hmax. unfold layer_count in Hmax.
  rewrite Hmax. destruct (1 <? _) eqn:Hlt; [done|].
  apply Z.ltb_ge in Hlt.
  assert (length canacc_df = 1%nat) as Hone.
  { destruct canacc_df; [done|]. simpl in *. lia. }
  unfold layer_extension. rewrite layer_ids_from_to, drop_layer_ids, Hone.
  simpl. by rewrite app_nil_r.
Qed.

Section Frames.
Variable FmTerms : Type.
Variable canonical_profiles_grouped_fm_terms :
  list (gmap string ProfileElement) → gmap Z FmTerms.

Lemma fm_levels_NoDup (gfmt : gmap Z FmTerms) : NoDup (fm_levels_of gfmt).
Proof.
  unfold fm_levels_of. rewrite merge_sort_Permutation.
  apply NoDup_fst_map_to_list.
Qed.

Lemma fm_levels_length (gfmt : gmap Z FmTerms) :
  length (fm_levels_of gfmt) = size gfmt.
Proof.
  unfold fm_levels_of. rewrite merge_sort_Permutation, length_fmap.
  apply length_map_to_list.
Qed.

(** The frame that the tasks are built from: its keys and its index. *)
Lemma preset_frame_keys gulm_df cep cap canacc_df :
  canacc_df ≠ [] →
  let levels := size (canonical_profiles_grouped_fm_terms [cep; cap]) in
  ∃ fm_df0,
    preset_frame canonical_profiles_grouped_fm_terms
      gulm_df cep cap canacc_df = inr fm_df0
    ∧ key <$> fm_df0
      = base_keys levels gulm_df
        ++ layer_keys levels (length canacc_df) gulm_df
    ∧ index <$> fm_df0 = seq 0 (length fm_df0).
Proof.
  intros Hne levels. unfold preset_frame.
  set (gfmt := canonical_profiles_grouped_fm_terms [cep; cap]).
  set (fm_levels := fm_levels_of gfmt).
  assert (NoDup fm_levels) as Hnd by apply fm_levels_NoDup.
  assert (length fm_levels = levels) as Hlen by apply fm_levels_length.
  rewrite (preset_data_ok _ _ _ Hne).
  set (base := base_preset fm_levels gulm_df).
  set (ext := layer_extension (layer_ids_of canacc_df) gulm_df base).
  assert (ext = relayer <$> product (from_to 2 (length canacc_df - 1))
                   match last fm_levels with
                   | Some top => (λ y, (top, y)) <$> gul_tuples gulm_df
                   | None => []
                   end) as Hext.
  { unfold ext, layer_extension, base, base_preset.
    rewrite layer_ids_from_to, drop_layer_ids. do 2 f_equal.
    destruct fm_levels as [|x ls _] using rev_ind.
    - simpl. apply last_n_nil.
    - rewrite last_snoc. replace (length gulm_df) with (length (gul_tuples gulm_df))
        by (unfold gul_tuples; apply length_fmap).
      apply last_n_product. }
  destruct (data_rows_ok fm_levels (rank_in fm_levels) (base ++ ext) 0%nat)
    as (rows & Hrows & Hkeys & Hidx).
  { apply Forall_app. split.
    - apply Forall_forall. intros [level t] Hin. simpl.
      unfold base, base_preset, product in Hin.
      apply list_elem_of_bind in Hin as (x & Hin & Hx).
      apply list_elem_of_bind in Hin as (y & Hin & _).
      apply list_elem_of_singleton in Hin as [= -> ->].
      apply list_elem_of_lookup in Hx as [i Hi].
      by destruct (rank_in_lookup _ _ _ Hnd Hi).
    - rewrite Hext. apply Forall_forall. intros p Hin.
      apply list_elem_of_fmap in Hin as ([layer [level t]] & -> & Hin).
      unfold product in Hin.
      apply list_elem_of_bind in Hin as (x & Hin & _).
      apply list_elem_of_bind in Hin as (y & Hin & Hy).
      apply list_elem_of_singleton in Hin as [= -> ->].
      destruct (last fm_levels) as [top|] eqn:Hlast;
        [|by apply not_elem_of_nil in Hy].
      apply list_elem_of_fmap in Hy as (y' & Heq & _). simplify_eq.
      destruct y' as [[[item canloc] l0] tiv0]. simpl.
      rewrite last_lookup in Hlast.
      by destruct (rank_in_lookup _ _ _ Hnd Hlast). }
  exists rows. split; [done|]. split; [|by rewrite Hidx, <- (length_fmap index), Hidx, length_seq].
  rewrite Hkeys, fmap_app. f_equal.
  - unfold base. rewrite base_preset_keys, rank_in_levels, Hlen by done. done.
  - rewrite Hext. unfold layer_keys.
    destruct (last fm_levels) as [top|] eqn:Hlast.
    + rewrite extension_keys.
      rewrite last_lookup in Hlast.
      destruct (rank_in_lookup _ _ _ Hnd Hlast) as [_ ->].
      assert (levels ≠ 0%nat) as Hnz.
      { apply lookup_lt_Some in Hlast. lia. }
      destruct (decide (levels = 0%nat)); [done|].
      replace (Z.of_nat (Init.Nat.pred (length fm_levels)) + 1)
        with (Z.of_nat levels) by lia.
      done.
    + apply last_None in Hlast. rewrite Hlast in Hlen. simpl in Hlen.
      destruct (decide (levels = 0%nat)); [|lia].
      by rewrite product_nil_r.
Qed.

(** C2 (amended): with more than one account row and at least one level,
    the frame is the layer-1 rows, one block of rows per level rank with
    one row per GUL item, followed for each layer id 2..L by one block
    that repeats the rows of the last level rank only, with the layer id
    in place of 1 and item id, location id, level and TIV as they are;
    the rows of the lower levels are not repeated, and every row is the
    row of a GUL item. *)
Theorem layers_replicate_the_last_level gulm_df cep cap canacc_df :
  (1 < length canacc_df)%nat →
  let levels := size (canonical_profiles_grouped_fm_terms [cep; cap]) in
  levels ≠ 0%nat →
  ∃ fm_df0,
    preset_frame canonical_profiles_grouped_fm_terms
      gulm_df cep cap canacc_df = inr fm_df0
    ∧ key <$> fm_df0
      = (rank ← from_to 1 levels; level_block rank 1 gulm_df)
        ++ (layer ← from_to 2 (length canacc_df - 1);
            level_block (Z.of_nat levels) layer gulm_df)
    ∧ Forall (λ r, item_id r ∈ Gul.item_id <$> gulm_df) fm_df0.
Proof.
  intros Hlayers levels Hlevels.
  assert (canacc_df ≠ []) as Hne by (intros ->; simpl in Hlayers; lia).
  destruct (preset_frame_keys gulm_df cep cap canacc_df Hne)
    as (fm_df0 & Hframe & Hkeys & _).
  exists fm_df0. split; [done|].
  unfold base_keys, layer_keys in Hkeys. fold levels in Hkeys.
  destruct (decide (levels = 0%nat)); [done|]. split; [done|].
  assert (Forall (λ k : Z * Z * Z * Z * Q, k.1.1.1.1 ∈ Gul.item_id <$> gulm_df)
            (key <$> fm_df0)) as Hitems.
  { rewrite Hkeys. apply Forall_app. split; apply Forall_forall; intros k Hk;
      apply list_elem_of_bind in Hk as (x & Hk & _);
      apply list_elem_of_fmap in Hk as (g & -> & Hg);
      apply list_elem_of_fmap; by exists g. }
  rewrite Forall_fmap in Hitems.
  eapply Forall_impl; [exact Hitems|]. by intros r.
Qed.
End Frames.

Lemma length_level_block rank layer gulm_df :
  length (level_block rank layer gulm_df) = length gulm_df.
Proof. unfold level_block. by rewrite length_fmap. Qed.

Lemma length_blocks (ks : list Z) (block : Z → list (Z * Z * Z * Z * Q)) n :
  (∀ k, length (block k) = n) → length (ks ≫= block) = (length ks * n)%nat.
Proof.
  intros Hblock. induction ks as [|k ks IH]; [done|].
  rewrite bind_cons, length_app, Hblock, IH. simpl. lia.
Qed.

Lemma length_base_keys levels gulm_df :
  length (base_keys levels gulm_df) = (levels * length gulm_df)%nat.
Proof.
  unfold base_keys. erewrite length_blocks, length_from_to; [done|].
  intros k. apply length_level_block.
Qed.

Lemma length_layer_keys levels layers gulm_df :
  length (layer_keys levels layers gulm_df)
  = if decide (levels = 0%nat) then 0%nat
    else ((layers - 1) * length gulm_df)%nat.
Proof.
  unfold layer_keys. destruct (decide (levels = 0%nat)); [done|].
  erewrite length_blocks, length_from_to; [done|].
  intros k. apply length_level_block.
Qed.

Lemma remove_dups_NoDup (l : list Z) : NoDup l → remove_dups l = l.
Proof.
  induction 1 as [|x l Hx _ IH]; [done|]. simpl.
  destruct (decide_rel elem_of x l); [done|]. by rewrite IH.
Qed.

Lemma length_remove_dups (l : list Z) : (length (remove_dups l) ≤ length l)%nat.
Proof.
  induction l as [|x l IH]; [done|]. simpl.
  destruct (decide_rel elem_of x l); simpl; lia.
Qed.

(** C3 (amended): with at least one account row, the layer count is the
    number of rows of the canonical account frame, and the layer ids are
    1..L; it is the number of distinct policy numbers when no policy number
    is on two rows, and is at least that number otherwise. *)
Theorem layer_count_is_number_of_account_rows canacc_df :
  canacc_df ≠ [] →
  layer_count canacc_df = inr (Z.of_nat (length canacc_df))
  ∧ layer_ids_of canacc_df = from_to 1 (length canacc_df)
  ∧ (NoDup (policynum <$> canacc_df) →
     length canacc_df = distinct_policynums canacc_df)
  ∧ (distinct_policynums canacc_df ≤ length canacc_df)%nat.
Proof.
  intros Hne. split; [by apply layer_count_rows|].
  split; [apply layer_ids_from_to|]. unfold distinct_policynums. split.
  - intros Hnd. by rewrite (remove_dups_NoDup _ Hnd), length_fmap.
  - rewrite <- (length_fmap policynum canacc_df). apply length_remove_dups.
Qed.



End FmFacts.

Module PoolFacts.
Import Pool PoolInv.

Lemma bind_insert_Permutation {A B} (f : A → list B) (ws : list A) w old new :
  ws !! w = Some old →
  (<[w := new]> ws ≫= f) ++ f old ≡ₚ (ws ≫= f) ++ f new.
Proof.
  intros Hw. rewrite insert_take_drop by (by eapply lookup_lt_Some).
  rewrite <- (take_drop_middle ws w old Hw) at 3.
  rewrite !bind_app, !bind_cons. solve_Permutation.
Qed.

Lemma sum_list_with_insert {A} (f : A → nat) (ws : list A) w old new :
  ws !! w = Some old →
  (sum_list_with f (<[w := new]> ws) + f old
   = sum_list_with f ws + f new)%nat.
Proof.
  intros Hw. rewrite insert_take_drop by (by eapply lookup_lt_Some).
  rewrite <- (take_drop_middle ws w old Hw) at 3.
  rewrite !sum_list_with_app. simpl. lia.
Qed.

(** Opens the clauses of the invariant that speak of the coordinating
    thread. *)
Ltac open_main_clauses :=
  unfold frame_ok, main_ok, stop_ok in *; simpl in *.

(** Columns are one of five: a list of columns without duplicates is part
    of [fm_term_columns]. *)
Lemma columns_submseteq (cs : list Column) :
  NoDup cs → cs ⊆+ fm_term_columns.
Proof.
  intros Hnd. apply NoDup_submseteq; [done|].
  intros c _. unfold fm_term_columns. destruct c; set_solver.
Qed.

Section Preservation.
Variable FmTerms : Type.
Variables get_limit get_deductible get_deductible_type get_share
          get_calc_rule : RuleFn FmTerms.
Variable gfmt : gmap Z FmTerms.
Variable canexp_df : list CanExpItem.
Variable canacc_df : list CanAccItem.
Variable fm_df0 : list Fm.Row.

Abbreviation State := (State FmTerms).
Abbreviation Worker := (Worker FmTerms).
Abbreviation inv_with :=
  (inv_with FmTerms get_limit get_deductible get_deductible_type get_share
     get_calc_rule gfmt canexp_df canacc_df fm_df0).
Abbreviation inv :=
  (inv FmTerms get_limit get_deductible get_deductible_type get_share
     get_calc_rule gfmt canexp_df canacc_df fm_df0).
Abbreviation worker_ok :=
  (worker_ok FmTerms get_limit get_deductible get_deductible_type get_share
     get_calc_rule gfmt canexp_df canacc_df fm_df0).
Abbreviation column_result :=
  (column_result FmTerms get_limit get_deductible get_deductible_type
     get_share get_calc_rule gfmt canexp_df canacc_df fm_df0).
Abbreviation merged_frame :=
  (merged_frame FmTerms get_limit get_deductible get_deductible_type
     get_share get_calc_rule gfmt canexp_df canacc_df fm_df0).
Abbreviation initial_task :=
  (initial_task FmTerms get_limit get_deductible get_deductible_type
     get_share get_calc_rule gfmt canexp_df canacc_df fm_df0).
Abbreviation derive :=
  (derive FmTerms get_limit get_deductible get_deductible_type
     get_share get_calc_rule gfmt canexp_df canacc_df fm_df0).
Abbreviation start0 :=
  (start get_limit get_deductible get_deductible_type get_share
     get_calc_rule gfmt canexp_df canacc_df fm_df0).

Lemma tasks_of_initial :
  tasks_of get_limit get_deductible get_deductible_type get_share
    get_calc_rule gfmt canexp_df canacc_df fm_df0
  = initial_task <$> fm_term_columns.
Proof. reflexivity. Qed.

Lemma inv_start : inv start0.
Proof.
  exists []. split; simpl; try done; repeat constructor.
Qed.

(** A worker moves without taking or giving up a column. *)
Lemma inv_with_worker s merged w old new :
  inv_with s merged → workers s !! w = Some old →
  holding FmTerms new = holding FmTerms old →
  publishing FmTerms new = publishing FmTerms old →
  worker_ok new →
  inv_with (with_worker w new s) merged.
Proof.
  intros [] Hw Hhold Hpub Hok.
  pose proof (bind_insert_Permutation (holding FmTerms) _ _ _ new Hw) as Hperm.
  pose proof (sum_list_with_insert (publishing FmTerms) _ _ _ new Hw) as Hsum.
  rewrite Hhold in Hperm. apply (inj (.++ _)) in Hperm.
  rewrite Hpub in Hsum.
  split; simpl in *; try done.
  - by apply Forall_insert.
  - by rewrite Hperm.
  - lia.
Qed.

Lemma accounted_length s merged :
  inv_with s merged →
  (length (task_q s) + length (workers s ≫= holding FmTerms)
   + length (result_q s) + length merged ≤ 5)%nat.
Proof.
  intros []. apply submseteq_length in inv_accounted0.
  rewrite !length_app, !length_fmap in inv_accounted0. simpl in *. lia.
Qed.

Lemma call_initial_task c r :
  call (initial_task c) (Fm.index r) = derive c r.
Proof. done. Qed.

Lemma inv_exec_worker s w s' :
  inv s → exec_worker w s = Some s' → inv s'.
Proof.
  intros [merged Hinv] Hexec. exists merged.
  unfold exec_worker in Hexec.
  destruct (workers s !! w) as [old|] eqn:Hw; [|done].
  pose proof (bind_insert_Permutation (holding FmTerms) _ _ _ WLoop Hw) as Hperm.
  pose proof (accounted_length _ _ Hinv) as Hlen.
  pose proof (Forall_lookup_1 _ _ _ _ (inv_workers _ _ _ _ _ _ _ _ _ _ _ _ Hinv) Hw)
    as Hold.
  destruct old as [| | |t done| | |]; cbv beta iota in Hexec; try discriminate Hexec.
  - (* the loop test *)
    injection Hexec as <-.
    apply (inv_with_worker _ _ _ _ _ Hinv Hw); by destruct (stopper s).
  - (* get_nowait *)
    destruct (task_q s) as [|t q] eqn:Hq; injection Hexec as <-.
    { by apply (inv_with_worker _ _ _ _ _ Hinv Hw). }
    clear Hperm.
    pose proof (bind_insert_Permutation (holding FmTerms) _ _ _
                  (WApply t []) Hw) as Hperm.
    pose proof (sum_list_with_insert (publishing FmTerms) _ _ _
                  (WApply t []) Hw) as Hsum.
    destruct Hinv. rewrite Hq in *.
    apply Forall_cons in inv_tasks0 as [Ht Hq'].
    simpl in Hperm. rewrite app_nil_r in Hperm.
    split; simpl in *; try done.
    + apply Forall_insert; [done|]. by split.
    + rewrite Hperm. etrans; [|exact inv_accounted0]. solve_submseteq.
    + lia.
  - (* inside apply *)
    simpl in Hold. destruct Hold as [Ht Hdone].
    assert (t_fm_df t = fm_df0) as Hcopy by (by rewrite Ht).
    rewrite Hcopy in Hexec.
    destruct (fm_df0 !! length done) as [r|] eqn:Hrow.
    + assert (call t (Fm.index r) = derive (t_column t) r) as Hcall
        by (by rewrite Ht at 1).
      rewrite Hcall in Hexec.
      destruct (derive (t_column t) r) as [v|] eqn:Hv; injection Hexec as <-.
      * apply (inv_with_worker _ _ _ _ _ Hinv Hw); [done|done|].
        split; [done|]. rewrite length_app. simpl.
        rewrite Nat.add_1_r, (take_S_r _ _ _ Hrow).
        apply mapM_Some. apply Forall2_app; [by apply mapM_Some|].
        by constructor.
      * clear Hperm.
        pose proof (bind_insert_Permutation (holding FmTerms) _ _ _
                      WDied Hw) as Hperm.
        pose proof (sum_list_with_insert (publishing FmTerms) _ _ _
                      WDied Hw) as Hsum.
        destruct Hinv. simpl in Hperm. rewrite app_nil_r in Hperm.
        split; simpl in *; try done.
        -- by apply Forall_insert.
        -- etrans; [|exact inv_accounted0]. rewrite <- Hperm. solve_submseteq.
        -- lia.
    + injection Hexec as <-. clear Hperm.
      pose proof (bind_insert_Permutation (holding FmTerms) _ _ _
                    WPublished Hw) as Hperm.
      pose proof (sum_list_with_insert (publishing FmTerms) _ _ _
                    WPublished Hw) as Hsum.
      apply lookup_ge_None in Hrow. rewrite take_ge in Hdone by done.
      destruct Hinv. simpl in Hperm. rewrite app_nil_r in Hperm.
      split; simpl in *; try done.
      * by apply Forall_insert.
      * apply Forall_app. split; [done|]. by repeat constructor.
      * etrans; [|exact inv_accounted0]. rewrite <- Hperm, fmap_app. simpl.
        solve_submseteq.
      * rewrite length_app. simpl. lia.
  - (* task_done *)
    clear Hperm.
    pose proof (sum_list_with_insert (publishing FmTerms) _ _ _
                  WLoop Hw) as Hsum.
    pose proof (sum_list_with_in _ (publishing FmTerms) _
                  (list_elem_of_lookup_2 _ _ _ Hw)) as Hin.
    pose proof (inv_counted _ _ _ _ _ _ _ _ _ _ _ _ Hinv) as Hcount.
    simpl in Hsum, Hin, Hcount.
    destruct (unfinished s) as [|u] eqn:Hu; injection Hexec as <-; [lia|].
    pose proof (bind_insert_Permutation (holding FmTerms) _ _ _
                  WLoop Hw) as Hperm.
    simpl in Hperm. apply (inj (.++ _)) in Hperm.
    destruct Hinv. rewrite Hu in *.
    split; simpl in *; try done.
    + by apply Forall_insert.
    + by rewrite Hperm.
    + lia.
    + intros Hm. specialize (inv_after_join0 Hm). lia.
    + unfold main_ok in *. simpl in *. rewrite Hu in inv_main0.
      destruct (main s) as [| | | | |[]]; try done; discriminate inv_main0.
Qed.

Lemma inv_exec_main s s' : inv s → exec_main s = Some s' → inv s'.
Proof.
  intros [merged Hinv] Hexec. unfold exec_main in Hexec.
  pose proof (accounted_length _ _ Hinv) as Hlen.
  destruct (main s) as [k| | | |k|e] eqn:Hmain; try discriminate Hexec.
  - (* worker.start() *)
    exists merged.
    destruct (workers s !! k) as [[]|] eqn:Hw; injection Hexec as <-.
    2-8: by (destruct Hinv; split; try done;
             open_main_clauses;
             rewrite Hmain in *).
    pose proof (inv_with_worker _ _ _ _ WLoop Hinv Hw eq_refl eq_refl I)
      as [].
    split; try done;
      open_main_clauses; by rewrite Hmain in *.
  - (* task_q.join() *)
    exists merged. destruct (unfinished s) eqn:Hu; [|done].
    injection Hexec as <-. destruct Hinv.
    split; try done;
      open_main_clauses; by rewrite Hmain in *.
  - (* the merge loop *)
    destruct (result_q s) as [|[c res] q] eqn:Hq.
    + exists merged. pose proof Hinv as [].
      unfold frame_ok, main_ok, stop_ok in *. rewrite Hmain in *.
      assert (merged ≡ₚ fm_term_columns) as Hall.
      { apply submseteq_length_Permutation.
        - etrans; [|exact inv_accounted0]. solve_submseteq.
        - rewrite Hq in *. simpl in *. lia. }
      destruct (Grouper.assign_policytc_id (fm_df s)) as [df|] eqn:Hdf;
        injection Hexec as <-.
      * split; try done; unfold frame_ok, main_ok, stop_ok; simpl.
        by rewrite <- inv_frame0.
      * split; try done; unfold frame_ok, main_ok, stop_ok; by simpl.
    + exists (c :: merged). injection Hexec as <-. destruct Hinv.
      unfold frame_ok, main_ok, stop_ok in *. rewrite Hmain, Hq in *.
      apply Forall_cons in inv_results0 as [Hres Hq'].
      split; try done; unfold frame_ok, main_ok, stop_ok; simpl in *;
        rewrite ?Hmain; try done.
      * constructor; [by eexists|done].
      * etrans; [|exact inv_accounted0]. solve_submseteq.
      * lia.
      * by rewrite inv_frame0, Hres.
  - (* the handler's joins *)
    exists merged.
    assert (∀ m, match m with
                 | MHandler _ | MRaised RuntimeError | MRaised SystemExit => True
                 | _ => False
                 end →
                 inv_with (with_main m s) merged) as Hstep.
    { intros m Hm. destruct Hinv.
      split; try done; open_main_clauses;
        rewrite ?Hmain in *; by destruct m as [| | | | |[]]. }
    destruct (workers s !! k) as [[]|]; try discriminate Hexec;
      injection Hexec as <-; by apply Hstep.
Qed.

Lemma inv_exec_sigint s s' : inv s → exec_sigint s = Some s' → inv s'.
Proof.
  intros [merged Hinv] Hexec. exists merged. unfold exec_sigint in Hexec.
  destruct Hinv.
  destruct (main s) eqn:Hmain; try discriminate Hexec; injection Hexec as <-;
    split; try done; open_main_clauses;
    by rewrite ?Hmain in *.
Qed.

Lemma inv_exec e s s' : inv s → exec e s = Some s' → inv s'.
Proof.
  destruct e; simpl;
    eauto using inv_exec_main, inv_exec_worker, inv_exec_sigint.
Qed.

Lemma inv_run sched s s' : inv s → run sched s = Some s' → inv s'.
Proof.
  revert s. induction sched as [|e sched IH]; intros s Hinv; simpl.
  - by intros [= <-].
  - destruct (exec e s) as [s1|] eqn:Hexec; [|done].
    eauto using inv_exec.
Qed.

(** What holds of every state that a schedule leads to. *)
Lemma inv_reachable sched s : run sched start0 = Some s → inv s.
Proof. apply inv_run, inv_start. Qed.
End Preservation.

Section Consequences.
Variable FmTerms : Type.
Variables get_limit get_deductible get_deductible_type get_share
          get_calc_rule : RuleFn FmTerms.
Variable gfmt : gmap Z FmTerms.
Variable canexp_df : list CanExpItem.
Variable canacc_df : list CanAccItem.
Variable fm_df0 : list Fm.Row.

Abbreviation inv_with' :=
  (inv_with FmTerms get_limit get_deductible get_deductible_type get_share
     get_calc_rule gfmt canexp_df canacc_df fm_df0).
Abbreviation column_result' :=
  (column_result FmTerms get_limit get_deductible get_deductible_type
     get_share get_calc_rule gfmt canexp_df canacc_df fm_df0).
Abbreviation merged_frame' :=
  (merged_frame FmTerms get_limit get_deductible get_deductible_type
     get_share get_calc_rule gfmt canexp_df canacc_df fm_df0).
Abbreviation merged_row' :=
  (merged_row FmTerms get_limit get_deductible get_deductible_type
     get_share get_calc_rule gfmt canexp_df canacc_df fm_df0).
Abbreviation merged_cell' :=
  (merged_cell FmTerms get_limit get_deductible get_deductible_type
     get_share get_calc_rule gfmt canexp_df canacc_df fm_df0).
Abbreviation derived_frame' :=
  (derived_frame FmTerms get_limit get_deductible get_deductible_type
     get_share get_calc_rule gfmt canexp_df canacc_df fm_df0).
Abbreviation derive' :=
  (derive FmTerms get_limit get_deductible get_deductible_type
     get_share get_calc_rule gfmt canexp_df canacc_df fm_df0).
Abbreviation task_ok' :=
  (task_ok FmTerms get_limit get_deductible get_deductible_type
     get_share get_calc_rule gfmt canexp_df canacc_df fm_df0).
Abbreviation start' :=
  (start get_limit get_deductible get_deductible_type get_share
     get_calc_rule gfmt canexp_df canacc_df fm_df0).

Lemma set_col_comm c1 c2 v1 v2 r :
  c1 ≠ c2 →
  Fm.set_col c1 v1 (Fm.set_col c2 v2 r) = Fm.set_col c2 v2 (Fm.set_col c1 v1 r).
Proof. by destruct c1, c2. Qed.

Lemma get_set_col c c' v r :
  Fm.get_col c (Fm.set_col c' v r) = if decide (c = c') then v else Fm.get_col c r.
Proof. by destruct c, c'. Qed.

Lemma get_col_set_policytc_id c id r :
  Fm.get_col c (Fm.set_policytc_id id r) = Fm.get_col c r.
Proof. by destruct c. Qed.

Lemma set_column_lookup c res df (i : nat) :
  Fm.set_column c res df !! i
  = Fm.set_col c (default CNaN (res !! i)) <$> df !! i.
Proof. unfold Fm.set_column. by rewrite list_lookup_imap. Qed.

Lemma length_set_column c res df :
  length (Fm.set_column c res df) = length df.
Proof. unfold Fm.set_column. by rewrite length_imap. Qed.

Lemma merged_frame_lookup merged (i : nat) :
  merged_frame' merged !! i = merged_row' merged i <$> fm_df0 !! i.
Proof.
  induction merged as [|c merged IH]; simpl.
  - by destruct (fm_df0 !! i).
  - rewrite set_column_lookup, IH. by destruct (fm_df0 !! i).
Qed.

Lemma merged_row_comm c1 c2 merged i r :
  merged_row' (c1 :: c2 :: merged) i r = merged_row' (c2 :: c1 :: merged) i r.
Proof.
  simpl. destruct (decide (c1 = c2)) as [->|Hne]; [done|].
  by apply set_col_comm.
Qed.

(** The order in which the results are merged is of no consequence. *)
Lemma merged_frame_Permutation merged1 merged2 :
  merged1 ≡ₚ merged2 → merged_frame' merged1 = merged_frame' merged2.
Proof.
  intros Hperm. apply list_eq. intros i. rewrite !merged_frame_lookup.
  destruct (fm_df0 !! i) as [r|]; [simpl|done]. f_equal.
  induction Hperm as [|c l1 l2 _ IH|c1 c2 l|l1 l2 l3 _ IH1 _ IH2].
  - done.
  - simpl. by rewrite IH.
  - apply merged_row_comm.
  - by rewrite IH1.
Qed.

Lemma merged_row_get_col merged c i r :
  c ∈ merged → Fm.get_col c (merged_row' merged i r) = merged_cell' c i.
Proof.
  induction merged as [|c' merged IH]; [by intros ?%not_elem_of_nil|].
  intros Hin. simpl. rewrite get_set_col.
  destruct (decide (c = c')) as [->|Hne]; [done|].
  apply IH. by apply elem_of_cons in Hin as [?|?].
Qed.

Lemma merged_row_key merged i r :
  Fm.key (merged_row' merged i r) = Fm.key r
  ∧ Fm.index (merged_row' merged i r) = Fm.index r
  ∧ Fm.policytc_id (merged_row' merged i r) = Fm.policytc_id r.
Proof. induction merged as [|c merged IH]; [done|]. simpl. apply IH. Qed.

Lemma merged_cell_derive c (i : nat) r0 res :
  column_result' c = Some res → fm_df0 !! i = Some r0 →
  derive' c r0 = Some (merged_cell' c i).
Proof.
  intros Hres Hr0. unfold merged_cell. rewrite Hres. simpl.
  apply mapM_Some in Hres.
  destruct (Forall2_lookup_l _ _ _ _ _ Hres Hr0) as (v & -> & ->). done.
Qed.

Lemma exec_length e (s s' : State FmTerms) :
  exec e s = Some s' → length (fm_df s') = length (fm_df s).
Proof.
  destruct e as [|w|]; simpl.
  - unfold exec_main. intros Hexec.
    destruct (main s); try discriminate Hexec.
    + destruct (workers s !! k) as [[]|]; by injection Hexec as <-.
    + destruct (unfinished s); [|done]. by injection Hexec as <-.
    + destruct (result_q s) as [|[c res] q].
      * destruct (Grouper.assign_policytc_id (fm_df s)) as [df|] eqn:Hdf;
          injection Hexec as <-; [|done].
        simpl. symmetry. by eapply length_mapM.
      * injection Hexec as <-. simpl. apply length_set_column.
    + destruct (workers s !! k) as [[]|]; try discriminate Hexec;
        by injection Hexec as <-.
  - unfold exec_worker. intros Hexec.
    destruct (workers s !! w) as [[| | |t done| | |]|]; try discriminate Hexec.
    + by injection Hexec as <-.
    + destruct (task_q s); by injection Hexec as <-.
    + destruct (t_fm_df t !! length done); [destruct (call t _)|];
        by injection Hexec as <-.
    + destruct (unfinished s); by injection Hexec as <-.
  - unfold exec_sigint. intros Hexec.
    destruct (main s); try discriminate Hexec; by injection Hexec as <-.
Qed.

(** No step adds a row to [fm_df] or takes one away. *)
Lemma run_length sched (s s' : State FmTerms) :
  run sched s = Some s' → length (fm_df s') = length (fm_df s).
Proof.
  revert s. induction sched as [|e sched IH]; intros s; simpl.
  - by intros [= <-].
  - destruct (exec e s) as [s1|] eqn:Hexec; [|done].
    intros Hrun. rewrite (IH _ Hrun). by eapply exec_length.
Qed.

Lemma calm_start : calm start'.
Proof.
  split; [done|]. simpl. intros j w _ Hw.
  do 5 (destruct j as [|j]; [by injection Hw|]). done.
Qed.

Lemma calm_exec e (s s' : State FmTerms) :
  e ≠ EvSigint → calm s → exec e s = Some s' → calm s'.
Proof.
  intros He [Hstop Hmain] Hexec. destruct e as [|w|]; [| |done]; simpl in Hexec.
  - unfold exec_main in Hexec.
    destruct (main s) as [k| | | |k|e] eqn:Hm; try done.
    + destruct (workers s !! k) as [wk|] eqn:Hk.
      * rewrite (Hmain k wk (le_n _) Hk) in Hexec. injection Hexec as <-.
        split; [done|]. simpl. intros j w Hj Hw.
        rewrite list_lookup_insert_ne in Hw by lia. apply (Hmain j); [lia|done].
      * injection Hexec as <-. by split.
    + destruct (unfinished s); [|done]. injection Hexec as <-. by split.
    + destruct (result_q s) as [|[c res] q];
        [destruct (Grouper.assign_policytc_id (fm_df s))|];
        injection Hexec as <-; split; simpl; by rewrite ?Hm.
  - unfold exec_worker in Hexec.
    destruct (workers s !! w) as [old|] eqn:Hw; [|done].
    assert (∀ new (s1 : State FmTerms),
              stopper s1 = stopper s → main s1 = main s →
              workers s1 = workers s → old ≠ WUnstarted →
              calm (with_worker w new s1)) as Hstep.
    { intros new s1 Hs1 Hm1 Hw1 Hold. split; simpl; [congruence|].
      rewrite Hm1, Hw1. destruct (main s) as [k| | | |k|e]; try done.
      intros j x Hj Hx. destruct (decide (w = j)) as [->|Hne].
      - by specialize (Hmain j old Hj Hw).
      - rewrite list_lookup_insert_ne in Hx by done. by apply (Hmain j). }
    destruct old as [| | |t done| | |]; try discriminate Hexec.
    + injection Hexec as <-. by apply Hstep.
    + destruct (task_q s); injection Hexec as <-; by apply Hstep.
    + destruct (t_fm_df t !! length done); [destruct (call t _)|];
        injection Hexec as <-; by apply Hstep.
    + destruct (unfinished s); injection Hexec as <-; by apply Hstep.
Qed.

Lemma calm_run sched (s s' : State FmTerms) :
  undisturbed sched → calm s → run sched s = Some s' → calm s'.
Proof.
  intros Hsched. revert s. induction Hsched as [|e sched He _ IH]; intros s Hs.
  - by intros [= <-].
  - simpl. destruct (exec e s) as [s1|] eqn:Hexec; [|done].
    eauto using calm_exec.
Qed.

(** With the flag set, no step touches [fm_df], returns it or clears the
    flag. *)
Lemma stopped_exec e (s s' : State FmTerms) :
  stop_ok FmTerms s → stopper s = true → exec e s = Some s' →
  fm_df s' = fm_df s ∧ stopper s' = true ∧ main s' ≠ MReturn.
Proof.
  intros Hok Hstop Hexec. specialize (Hok Hstop).
  destruct e as [|w|]; simpl in Hexec.
  - unfold exec_main in Hexec.
    destruct (main s) as [| | | |k|[]]; try done.
    destruct (workers s !! k) as [[]|]; try discriminate Hexec;
      by injection Hexec as <-.
  - unfold exec_worker in Hexec.
    assert (main s ≠ MReturn) by (by destruct (main s)).
    destruct (workers s !! w) as [[| | |t done| | |]|]; try discriminate Hexec.
    + by injection Hexec as <-.
    + destruct (task_q s); by injection Hexec as <-.
    + destruct (t_fm_df t !! length done); [destruct (call t _)|];
        by injection Hexec as <-.
    + destruct (unfinished s); by injection Hexec as <-.
  - unfold exec_sigint in Hexec. by destruct (main s) as [| | | | |[]].
Qed.

Lemma stopped_run sched (s s' : State FmTerms) :
  inv FmTerms get_limit get_deductible get_deductible_type get_share
    get_calc_rule gfmt canexp_df canacc_df fm_df0 s →
  stopper s = true → main s ≠ MReturn → run sched s = Some s' →
  fm_df s' = fm_df s ∧ stopper s' = true ∧ main s' ≠ MReturn.
Proof.
  revert s. induction sched as [|e sched IH]; intros s Hinv Hstop Hmain; simpl.
  - by intros [= <-].
  - destruct (exec e s) as [s1|] eqn:Hexec; [|done]. intros Hrun.
    pose proof (inv_exec _ _ _ _ _ _ _ _ _ _ _ _ _ Hinv Hexec) as Hinv1.
    destruct Hinv as [merged []].
    destruct (stopped_exec _ _ _ inv_stop0 Hstop Hexec) as (Hdf & Hstop1 & Hm1).
    destruct (IH _ Hinv1 Hstop1 Hm1 Hrun) as (Hdf' & ? & ?).
    by rewrite Hdf', Hdf.
Qed.

(** A column without a result is neither published nor merged, so some
    task stays unfinished. *)
Lemma failing_column_unfinished c0 (s : State FmTerms) merged :
  column_result' c0 = None → inv_with' s merged →
  (1 ≤ unfinished s)%nat.
Proof.
  intros Hfail [].
  assert (c0 ∉ (result_q s).*1 ++ merged) as Hnot.
  { intros [Hin|Hin]%elem_of_app.
    - apply list_elem_of_fmap in Hin as ([c res] & -> & Hin).
      rewrite Forall_forall in inv_results0.
      specialize (inv_results0 _ Hin). simpl in *. congruence.
    - rewrite Forall_forall in inv_merged0.
      destruct (inv_merged0 _ Hin) as [res Hres]. congruence. }
  assert ((result_q s).*1 ++ merged ⊆+ fm_term_columns) as Hsub
    by (etrans; [|exact inv_accounted0]; solve_submseteq).
  apply submseteq_Permutation in Hsub as [rest Hrest].
  assert (c0 ∈ rest) as Hc0.
  { assert (c0 ∈ fm_term_columns) as Hin
      by (unfold fm_term_columns; destruct c0; set_solver).
    rewrite Hrest in Hin. by apply elem_of_app in Hin as [?|?]. }
  apply Permutation_length in Hrest.
  rewrite !length_app, length_fmap in Hrest.
  destruct rest as [|? rest]; [by apply not_elem_of_nil in Hc0|].
  simpl in *. lia.
Qed.
End Consequences.

Section Sequential.
Variable FmTerms : Type.
Variables get_limit get_deductible get_deductible_type get_share
          get_calc_rule : RuleFn FmTerms.
Variable gfmt : gmap Z FmTerms.
Variable canexp_df : list CanExpItem.
Variable canacc_df : list CanAccItem.
Variable fm_df0 : list Fm.Row.

Abbreviation column_result1 :=
  (column_result FmTerms get_limit get_deductible get_deductible_type
     get_share get_calc_rule gfmt canexp_df canacc_df fm_df0).
Abbreviation initial_task1 :=
  (initial_task FmTerms get_limit get_deductible get_deductible_type
     get_share get_calc_rule gfmt canexp_df canacc_df fm_df0).
Abbreviation start1 :=
  (start get_limit get_deductible get_deductible_type get_share
     get_calc_rule gfmt canexp_df canacc_df fm_df0).

Lemma run_app sched1 sched2 (s : State FmTerms) :
  run (sched1 ++ sched2) s = run sched1 s ≫= run sched2.
Proof.
  revert s. induction sched1 as [|e sched1 IH]; intros s; [done|].
  simpl. destruct (exec e s); [apply IH|done].
Qed.

Lemma undisturbed_task_events rows : undisturbed (task_events rows).
Proof.
  unfold undisturbed, task_events.
  repeat first [apply Forall_app; split | apply Forall_cons; split
               | apply Forall_replicate | apply Forall_nil]; done.
Qed.

Lemma undisturbed_sequential rows : undisturbed (sequential rows).
Proof.
  pose proof (undisturbed_task_events rows) as Htask.
  unfold undisturbed, sequential in *.
  cbn [replicate mjoin list_join].
  repeat first [exact Htask | apply Forall_app; split
               | apply Forall_cons; split | apply Forall_nil]; done.
Qed.

(** Worker 0 goes through the rows that are left of its column. *)
Lemma run_rows (t : Task FmTerms) rest buf vs q u R b ws df m :
  drop (length buf) (t_fm_df t) = rest →
  mapM (λ r, call t (Fm.index r)) rest = Some vs →
  run (replicate (length rest) (EvWorker 0))
    {| task_q := q; unfinished := u; result_q := R; stopper := b;
       workers := WApply t buf :: ws; fm_df := df; main := m |}
  = Some {| task_q := q; unfinished := u; result_q := R; stopper := b;
            workers := WApply t (buf ++ vs) :: ws; fm_df := df; main := m |}.
Proof.
  revert buf vs. induction rest as [|r rest IH]; intros buf vs Hdrop Hres.
  - injection Hres as <-. by rewrite app_nil_r.
  - assert (t_fm_df t !! length buf = Some r) as Hrow.
    { rewrite <- (Nat.add_0_r (length buf)), <- lookup_drop. by rewrite Hdrop. }
    rewrite (drop_S _ _ _ Hrow) in Hdrop. injection Hdrop as Hdrop.
    cbn [mapM] in Hres.
    destruct (call t (Fm.index r)) as [v|] eqn:Hv; [|done].
    destruct (mapM (λ r, call t (Fm.index r)) rest) as [vs'|] eqn:Hvs;
      [|done].
    injection Hres as <-.
    cbn [length replicate run exec]. unfold exec_worker.
    cbn [workers lookup list_lookup]. rewrite Hrow, Hv.
    unfold with_worker. cbn [workers insert list_insert task_q unfinished
                               result_q stopper fm_df main].
    rewrite (IH (buf ++ [v]) vs').
    + by rewrite <- app_assoc.
    + by rewrite length_app, Nat.add_1_r.
    + done.
Qed.

(** Worker 0 claims the task at the head of the queue, computes its
    column, publishes it and marks the task done. *)
Lemma run_task (t : Task FmTerms) rows res q u R ws df m :
  length (t_fm_df t) = rows →
  mapM (λ r, call t (Fm.index r)) (t_fm_df t) = Some res →
  run (task_events rows)
    {| task_q := t :: q; unfinished := S u; result_q := R; stopper := false;
       workers := WLoop :: ws; fm_df := df; main := m |}
  = Some {| task_q := q; unfinished := u;
            result_q := R ++ [(t_column t, res)]; stopper := false;
            workers := WLoop :: ws; fm_df := df; main := m |}.
Proof.
  intros <- Hres. unfold task_events. cbn.
  unfold with_worker, with_task_q. cbn.
  rewrite run_app, (run_rows t (t_fm_df t) [] res) by done. cbn.
  unfold exec_worker. cbn.
  rewrite lookup_ge_None_2 by (by rewrite (length_mapM _ _ _ Hres)).
  done.
Qed.

Lemma index_set_column c res df :
  Fm.index <$> Fm.set_column c res df = Fm.index <$> df.
Proof.
  apply list_eq. intros i. rewrite !list_lookup_fmap, set_column_lookup.
  by destruct (df !! i).
Qed.

(** When no rule raises and the index is the row position, the function
    returns under the sequential schedule. *)
Lemma sequential_returns :
  (∀ c, is_Some (column_result1 c)) →
  Fm.index <$> fm_df0 = seq 0 (length fm_df0) →
  ∃ s, run (sequential (length fm_df0)) start1 = Some s ∧ main s = MReturn.
Proof.
  intros Hall Hindex.
  destruct (Hall limit) as [r1 H1], (Hall deductible) as [r2 H2],
    (Hall deductible_type) as [r3 H3], (Hall share) as [r4 H4],
    (Hall calcrule_id) as [r5 H5].
  set (merged := Fm.set_column calcrule_id r5
                   (Fm.set_column share r4
                      (Fm.set_column deductible_type r3
                         (Fm.set_column deductible r2
                            (Fm.set_column limit r1 fm_df0))))).
  destruct (GrouperFacts.assign_policytc_id_returns merged) as (df & Hdf & _).
  { unfold merged. rewrite !index_set_column, !length_set_column. done. }
  exists {| task_q := []; unfinished := 0; result_q := []; stopper := false;
            workers := [WLoop; WLoop; WLoop; WLoop; WLoop];
            fm_df := df; main := MReturn |}.
  split; [|done].
  unfold sequential. rewrite run_app.
  change (run (replicate 6 EvMain) start1)
    with (Some {| task_q := initial_task1 <$> fm_term_columns;
                  unfinished := 5; result_q := []; stopper := false;
                  workers := [WLoop; WLoop; WLoop; WLoop; WLoop];
                  fm_df := fm_df0; main := MJoin |}).
  cbn [mbind option_bind replicate mjoin list_join fmap list_fmap
       fm_term_columns].
  rewrite <- !app_assoc.
  rewrite run_app, (run_task (initial_task1 limit) _ r1) by done.
  cbn [mbind option_bind app].
  rewrite run_app, (run_task (initial_task1 deductible) _ r2) by done.
  cbn [mbind option_bind app].
  rewrite run_app, (run_task (initial_task1 deductible_type) _ r3) by done.
  cbn [mbind option_bind app].
  rewrite run_app, (run_task (initial_task1 share) _ r4) by done.
  cbn [mbind option_bind app].
  rewrite run_app, (run_task (initial_task1 calcrule_id) _ r5) by done.
  cbn [mbind option_bind app t_column initial_task].
  cbn -[Fm.set_column Grouper.assign_policytc_id].
  fold merged. by rewrite Hdf.
Qed.
End Sequential.

Section Claims.
Variable FmTerms : Type.
Variables get_limit get_deductible get_deductible_type get_share
          get_calc_rule : RuleFn FmTerms.
Variable gfmt : gmap Z FmTerms.
Variable canexp_df : list CanExpItem.
Variable canacc_df : list CanAccItem.
Variable fm_df0 : list Fm.Row.

Abbreviation column_result0 :=
  (column_result FmTerms get_limit get_deductible get_deductible_type
     get_share get_calc_rule gfmt canexp_df canacc_df fm_df0).
Abbreviation derived_frame0 :=
  (derived_frame FmTerms get_limit get_deductible get_deductible_type
     get_share get_calc_rule gfmt canexp_df canacc_df fm_df0).
Abbreviation rule0 :=
  (rule FmTerms get_limit get_deductible get_deductible_type
     get_share get_calc_rule).
Abbreviation begin :=
  (start get_limit get_deductible get_deductible_type get_share
     get_calc_rule gfmt canexp_df canacc_df fm_df0).

(** C4 (amended): when a rule function raises for some row, no state that
    any schedule leads to has a result merged into [fm_df], and the
    function does not return; a task stays unfinished, so the
    coordinating thread does not get past [task_q.join()]: as long as
    SIGINT is not delivered it is starting the workers or waiting at the
    join, and has raised nothing. *)
Theorem failing_rule_blocks_the_join c0 sched (s : State FmTerms) :
  column_result0 c0 = None →
  run sched begin = Some s →
  fm_df s = fm_df0
  ∧ (1 ≤ unfinished s)%nat
  ∧ main s ≠ MMerge ∧ main s ≠ MReturn
  ∧ (undisturbed sched →
     ((∃ k, main s = MStart k) ∨ main s = MJoin) ∧ ¬ aborted s).
Proof.
  intros Hfail Hrun.
  destruct (inv_reachable _ _ _ _ _ _ _ _ _ _ _ _ Hrun) as [merged Hinv].
  assert (1 ≤ unfinished s)%nat as Hun
    by (eapply failing_column_unfinished; [exact Hfail|exact Hinv]).
  pose proof Hinv as [].
  assert (main s ≠ MMerge ∧ main s ≠ MReturn ∧ main s ≠ MRaised IndexError)
    as (Hm1 & Hm2 & Hm3).
  { unfold main_ok in inv_main0.
    repeat split; intros Hm; rewrite Hm in inv_main0; lia. }
  assert (merged = []) as ->.
  { destruct merged; [done|]. assert (unfinished s = 0%nat); [|lia].
    by apply inv_after_join0. }
  split; [|split; [done|split; [done|split; [done|]]]].
  - unfold frame_ok in inv_frame0. by destruct (main s).
  - intros Hsched.
    assert (calm s) as [_ Hcalm]
      by (eapply calm_run; [exact Hsched|apply calm_start|exact Hrun]).
    unfold aborted.
    destruct (main s) as [k| | | |k|[]]; try done.
    + split; [eauto|]. by intros [e ?].
    + split; [eauto|]. by intros [e ?].
Qed.

(** C9 (amended): a worker reads the stop flag at the head of its
    [while] loop only, and leaves [run] there when the flag is set; in
    any other place its move is the same whatever the flag, so a worker
    inside [apply] goes through the rows that are left and publishes its
    column; and once the flag is set, no step assigns anything to
    [fm_df] and the function does not return. *)
Theorem stop_flag_is_read_between_tasks :
  (∀ (s : State FmTerms) w,
     workers s !! w = Some WLoop →
     exec (EvWorker w) s
     = Some (with_worker w (if stopper s then WFinished else WGet) s))
  ∧ (∀ (s : State FmTerms) w b,
       workers s !! w ≠ Some WLoop →
       exec (EvWorker w) (with_stopper b s)
       = with_stopper b <$> exec (EvWorker w) s)
  ∧ (∀ sched (s : State FmTerms) sched' s',
       run sched begin = Some s → stopper s = true →
       run sched' s = Some s' →
       fm_df s' = fm_df s ∧ stopper s' = true ∧ main s' ≠ MReturn).
Proof.
  split; [|split].
  - intros s w Hw. simpl. unfold exec_worker. by rewrite Hw.
  - intros s w b Hw. simpl. unfold exec_worker. simpl.
    destruct (workers s !! w) as [[| | |t buf| | |]|]; try done.
    + by destruct (task_q s).
    + destruct (t_fm_df t !! length buf); [|done]. by destruct (call t _).
    + by destruct (unfinished s).
  - intros sched s sched' s' Hrun Hstop Hrun'.
    pose proof (inv_reachable _ _ _ _ _ _ _ _ _ _ _ _ Hrun) as Hinv.
    eapply stopped_run; [exact Hinv|done| |done].
    destruct Hinv as [merged []]. specialize (inv_stop0 Hstop).
    by destruct (main s).
Qed.

(** C10: in every state that a schedule leads to, the tasks in the queue
    and in the hands of the workers are the ones built before the first
    worker was started, so the call a worker makes for a row is the rule
    of its column on the copies of the grouped terms, of the two
    canonical frames and of the frame with its placeholder terms; every
    published series is the result of its column; and when the function
    returns, the frame is the derived frame, whose term cells are those
    values, whatever the schedule was; and it does return, under the
    sequential schedule, when no rule raises and the index of the frame is
    the row position. *)
Theorem term_columns_depend_on_preset_inputs_only :
  (∀ sched (s : State FmTerms),
     run sched begin = Some s →
     Forall (λ t, t_gfmt t = gfmt ∧ t_canexp_df t = canexp_df
                  ∧ t_canacc_df t = canacc_df ∧ t_fm_df t = fm_df0
                  ∧ t_func t = rule0 (t_column t)) (task_q s)
     ∧ (∀ w t done r,
          workers s !! w = Some (WApply t done) →
          t_fm_df t !! length done = Some r →
          call t (Fm.index r)
          = rule0 (t_column t) gfmt canexp_df canacc_df fm_df0 (Fm.index r))
     ∧ Forall (λ cr, column_result0 cr.1 = Some cr.2) (result_q s))
  ∧ (∀ sched (s : State FmTerms),
       run sched begin = Some s → main s = MReturn →
       derived_frame0 = Some (fm_df s)
       ∧ ∀ (i : nat) r,
           fm_df s !! i = Some r →
           ∃ r0, fm_df0 !! i = Some r0
             ∧ Fm.key r = Fm.key r0
             ∧ ∀ c, rule0 c gfmt canexp_df canacc_df fm_df0 (Fm.index r0)
                    = Some (Fm.get_col c r))
  ∧ (∀ sched1 sched2 (s1 s2 : State FmTerms),
       run sched1 begin = Some s1 → main s1 = MReturn →
       run sched2 begin = Some s2 → main s2 = MReturn →
       fm_df s1 = fm_df s2)
  ∧ undisturbed (sequential (length fm_df0))
  ∧ ((∀ c, is_Some (column_result0 c)) →
     Fm.index <$> fm_df0 = seq 0 (length fm_df0) →
     ∃ s, run (sequential (length fm_df0)) begin = Some s
       ∧ main s = MReturn).
Proof.
  assert (∀ sched (s : State FmTerms),
            run sched begin = Some s → main s = MReturn →
            derived_frame0 = Some (fm_df s)
            ∧ Forall (λ c, is_Some (column_result0 c)) fm_term_columns)
    as Hret.
  { intros sched s Hrun Hmain.
    destruct (inv_reachable _ _ _ _ _ _ _ _ _ _ _ _ Hrun) as [merged []].
    unfold frame_ok in inv_frame0. rewrite Hmain in inv_frame0.
    destruct inv_frame0 as [Hperm Hassign]. unfold derived_frame.
    rewrite <- (merged_frame_Permutation _ _ _ _ _ _ _ _ _ _ _ _ Hperm).
    split; [done|]. by rewrite <- Hperm. }
  split; [|split; [|split;
    [|split; [apply undisturbed_sequential|apply sequential_returns]]]].
  - intros sched s Hrun.
    destruct (inv_reachable _ _ _ _ _ _ _ _ _ _ _ _ Hrun) as [merged []].
    split; [|split; [|done]].
    + eapply Forall_impl; [exact inv_tasks0|]. intros t ->. done.
    + intros w t done r Hw Hr.
      destruct (Forall_lookup_1 _ _ _ _ inv_workers0 Hw) as [-> _]. done.
  - intros sched s Hrun Hmain. destruct (Hret _ _ Hrun Hmain) as [Hdf Hall].
    split; [done|]. intros i r Hr.
    unfold derived_frame, Grouper.assign_policytc_id in Hdf.
    apply mapM_Some in Hdf.
    destruct (Forall2_lookup_r _ _ _ _ _ Hdf Hr) as (r1 & Hr1 & Hid).
    rewrite merged_frame_lookup in Hr1.
    destruct (fm_df0 !! i) as [r0|] eqn:Hr0; [|done].
    injection Hr1 as <-. exists r0. split; [done|].
    destruct (Grouper.get_policytc_id _ _) as [id|]; [|done].
    injection Hid as <-.
    destruct (merged_row_key FmTerms get_limit get_deductible
                get_deductible_type get_share get_calc_rule gfmt canexp_df
                canacc_df fm_df0 fm_term_columns i r0) as (Hkey & _ & _).
    split; [exact Hkey|]. intros c.
    assert (c ∈ fm_term_columns) as Hc
      by (clear; unfold fm_term_columns; destruct c; set_solver).
    rewrite Forall_forall in Hall. destruct (Hall c Hc) as [res Hres].
    rewrite get_col_set_policytc_id.
    etrans; [exact (merged_cell_derive _ _ _ _ _ _ _ _ _ _ _ _ _ _ Hres Hr0)|].
    f_equal. symmetry.
    exact (merged_row_get_col FmTerms get_limit get_deductible
             get_deductible_type get_share get_calc_rule gfmt canexp_df
             canacc_df fm_df0 fm_term_columns c i r0 Hc).
  - intros sched1 sched2 s1 s2 Hrun1 Hm1 Hrun2 Hm2.
    destruct (Hret _ _ Hrun1 Hm1) as [H1 _].
    destruct (Hret _ _ Hrun2 Hm2) as [H2 _]. congruence.
Qed.
End Claims.

Section RowCount.
Variable FmTerms : Type.
Variable canonical_profiles_grouped_fm_terms :
  list (gmap string ProfileElement) → gmap Z FmTerms.
Variables get_limit get_deductible get_deductible_type get_share
          get_calc_rule : RuleFn FmTerms.

(** C1 (amended): with at least one account row the frame is built, and
    it has one row per level and GUL item for layer 1 and one row per GUL
    item, at the last level, for each of the layers 2..L: with at least
    one level that is |GulItems| × (|FmLevelSet| + L - 1) rows, where L is
    the number of account rows.  This is |FmLevelSet| × |GulItems| ×
    max(1, L) when there is at most one level or one layer.  No step of
    the worker pool, of the merge or of the grouper changes the number of
    rows, and when no rule raises the function returns a frame of that
    many rows. *)
Theorem fm_row_count gulm_df cep cap canexp_df canacc_df :
  canacc_df ≠ [] →
  let gfmt := canonical_profiles_grouped_fm_terms [cep; cap] in
  let levels := size gfmt in
  let items := length gulm_df in
  let layers := length canacc_df in
  ∃ fm_df0,
    Fm.preset_frame canonical_profiles_grouped_fm_terms
      gulm_df cep cap canacc_df = inr fm_df0
    ∧ length fm_df0
      = (if decide (levels = 0) then 0 else items * (levels + layers - 1))%nat
    ∧ ((levels ≤ 1 ∨ layers = 1)%nat →
       length fm_df0 = (levels * items * Nat.max 1 layers)%nat)
    ∧ (∀ sched s,
         run sched (start get_limit get_deductible get_deductible_type
                      get_share get_calc_rule gfmt canexp_df canacc_df fm_df0)
           = Some s →
         length (fm_df s) = length fm_df0)
    ∧ ((∀ c, is_Some (column_result FmTerms get_limit get_deductible
                        get_deductible_type get_share get_calc_rule gfmt
                        canexp_df canacc_df fm_df0 c)) →
       ∃ s, run (sequential (length fm_df0))
              (start get_limit get_deductible get_deductible_type
                 get_share get_calc_rule gfmt canexp_df canacc_df fm_df0)
            = Some s
         ∧ main s = MReturn ∧ length (fm_df s) = length fm_df0).
Proof.
  intros Hne gfmt levels items layers.
  destruct (FmFacts.preset_frame_keys FmTerms
              canonical_profiles_grouped_fm_terms gulm_df cep cap canacc_df
              Hne) as (fm_df0 & Hframe & Hkeys & Hindex).
  exists fm_df0. split; [done|].
  assert (length fm_df0
          = (if decide (levels = 0) then 0
             else items * (levels + layers - 1))%nat) as Hlen.
  { rewrite <- (length_fmap Fm.key), Hkeys, length_app,
      FmFacts.length_base_keys, FmFacts.length_layer_keys.
    fold gfmt levels items layers.
    assert (layers ≠ 0)%nat
      by (subst layers; destruct canacc_df; [done|simpl; lia]).
    destruct (decide (levels = 0)%nat); nia. }
  split; [done|]. split.
  - intros Hsmall. rewrite Hlen.
    assert (layers ≠ 0)%nat
      by (subst layers; destruct canacc_df; [done|simpl; lia]).
    replace (Nat.max 1 layers) with layers by lia.
    clearbody levels items layers.
    destruct (decide (levels = 0)%nat); [nia|].
    destruct Hsmall as [Hl|Hl]; [|subst layers; nia].
    assert (levels = 1)%nat as -> by lia. nia.
  - split; [intros sched s Hrun; by rewrite (run_length _ _ _ _ Hrun)|].
    intros Hall.
    destruct (sequential_returns FmTerms get_limit get_deductible
                get_deductible_type get_share get_calc_rule gfmt canexp_df
                canacc_df fm_df0 Hall Hindex) as (s & Hrun & Hmain).
    exists s. split; [done|]. split; [done|].
    by rewrite (run_length _ _ _ _ Hrun).
Qed.
End RowCount.

End PoolFacts.

(** * The properties on the small portfolio *)

Module OnExample.
Import Pool PoolInv Example.

(** ** Keyed exposure joiner *)

Lemma joiner_one_item_per_positive_pair_witness :
  Gul.load_gul_master_data_frame id cep canexp_df keys_df
    = inr (canexp_df, gulm_df)
  ∧ length (Gul.scanned_pairs canexp_df (Gul.tiv_fields_of id cep) keys_df)
    = 4%nat
  ∧ length gulm_df
    = length (filter (λ p, (0 < Gul.pair_tiv p)%Q)
                (Gul.scanned_pairs canexp_df (Gul.tiv_fields_of id cep) keys_df)).
Proof.
  split; [reflexivity|]. split; [reflexivity|].
  destruct (GulFacts.joiner_one_item_per_positive_pair id cep canexp_df keys_df)
    as (_ & _ & _ & Hreturned).
  destruct (Hreturned canexp_df gulm_df eq_refl) as (_ & _ & Hlength).
  exact Hlength.
Defined.

Lemma joiner_item_ids_contiguous_witness :
  Gul.load_gul_master_data_frame id cep canexp_df keys_df
    = inr (canexp_df, gulm_df)
  ∧ Gul.item_id <$> gulm_df = [1; 2; 3].
Proof.
  split; [reflexivity|].
  destruct (GulFacts.joiner_item_ids_contiguous id cep canexp_df keys_df)
    as [_ Hreturned].
  destruct (Hreturned canexp_df gulm_df eq_refl) as (Hids & _).
  exact Hids.
Defined.

Lemma stale_lookup_is_unmatched :
  ∃ k, k ∈ keys_df_stale ∧ Gul.unmatched canexp_df k.
Proof.
  exists (keys_item 9 1 19 21). split.
  - right. left.
  - intros r Hr. unfold canexp_df in Hr.
    apply elem_of_cons in Hr as [->|Hr]; [done|].
    apply elem_of_cons in Hr as [->|Hr]; [done|].
    by apply not_elem_of_nil in Hr.
Defined.

Lemma joiner_missing_record_aborts_witness :
  ∃ k, Gul.load_gul_master_data_frame id cep canexp_df keys_df_stale
       = inl (OasisException k)
     ∧ Gul.unmatched canexp_df k.
Proof.
  destruct (GulFacts.joiner_missing_record_aborts id cep canexp_df
              keys_df_stale stale_lookup_is_unmatched)
    as (before & k & after & _ & _ & Hk & Hload & _).
  exists k. split; [exact Hload|exact Hk].
Defined.

(** ** FM hierarchy expander *)

(** C1, the claim as it stands, fails: two levels, one item and two layers
    give three rows, not 2 × 1 × max(1, 2) = 4. *)
Lemma fm_row_count_is_not_the_product :
  Fm.preset_frame grouped_fm_terms one_item cep ∅ canacc_df = inr fm_df0
  ∧ size (grouped_fm_terms [cep; ∅]) = 2%nat
  ∧ length one_item = 1%nat
  ∧ Fm.layer_count canacc_df = inr 2
  ∧ Fm.distinct_policynums canacc_df = 2%nat
  ∧ length fm_df0 = 3%nat
  ∧ length fm_df0
    ≠ (size (grouped_fm_terms [cep; ∅]) * length one_item
       * Nat.max 1 (length canacc_df))%nat.
Proof. repeat split; try reflexivity. vm_compute. discriminate. Qed.

Lemma fm_row_count_witness :
  canacc_df ≠ []
  ∧ ∃ fm_df, Fm.preset_frame grouped_fm_terms gulm_df cep ∅ canacc_df = inr fm_df
      ∧ length fm_df = 9%nat.
Proof.
  split; [discriminate|].
  destruct (PoolFacts.fm_row_count () grouped_fm_terms get_limit get_deductible
              get_deductible_type get_share get_calc_rule
              gulm_df cep ∅ canexp_df canacc_df)
    as (fm_df & Hframe & Hlen & _); [discriminate|].
  exists fm_df. split; [exact Hframe|]. rewrite Hlen. reflexivity.
Defined.

(** C2, the claim as it stands, fails: with two layers, the layer-1 row of
    level rank 1 is in the frame, and no row of layer 2 has level rank 1. *)
Lemma lower_level_rows_are_not_replicated :
  Fm.preset_frame grouped_fm_terms one_item cep ∅ canacc_df = inr fm_df0
  ∧ Fm.layer_count canacc_df = inr 2
  ∧ fm_row 0 1 1 1 ∈ fm_df0
  ∧ ¬ ∃ r, r ∈ fm_df0 ∧ Fm.layer_id r = 2
           ∧ Fm.level_id r = Fm.level_id (fm_row 0 1 1 1)
           ∧ Fm.item_id r = Fm.item_id (fm_row 0 1 1 1).
Proof.
  split; [reflexivity|]. split; [reflexivity|]. split; [left|].
  intros (r & Hr & Hlayer & Hlevel & _). unfold fm_df0 in Hr.
  repeat (apply elem_of_cons in Hr as [->|Hr]; [discriminate|]).
  by apply not_elem_of_nil in Hr.
Qed.

Lemma layers_replicate_the_last_level_witness :
  (1 < length canacc_df)%nat
  ∧ size (grouped_fm_terms [cep; ∅]) ≠ 0%nat
  ∧ ∃ fm_df, Fm.preset_frame grouped_fm_terms gulm_df cep ∅ canacc_df = inr fm_df
      ∧ Fm.key <$> fm_df
        = Fm.level_block 1 1 gulm_df ++ Fm.level_block 2 1 gulm_df
          ++ Fm.level_block 2 2 gulm_df.
Proof.
  split; [simpl; lia|]. split; [discriminate|].
  destruct (FmFacts.layers_replicate_the_last_level () grouped_fm_terms
              gulm_df cep ∅ canacc_df)
    as (fm_df & Hframe & Hkeys & _); [simpl; lia|discriminate|].
  exists fm_df. split; [exact Hframe|]. rewrite Hkeys. reflexivity.
Defined.

(** C3, the claim as it stands, fails: two account rows with one policy
    number give two layers. *)
Lemma layer_count_counts_repeated_policies :
  Fm.layer_count canacc_df_one_policy = inr 2
  ∧ Fm.distinct_policynums canacc_df_one_policy = 1%nat
  ∧ Fm.layer_count canacc_df_one_policy
    ≠ inr (Z.of_nat (Fm.distinct_policynums canacc_df_one_policy)).
Proof. repeat split; try reflexivity. vm_compute. discriminate. Qed.

Lemma layer_count_is_number_of_account_rows_witness :
  canacc_df_one_policy ≠ []
  ∧ Fm.layer_count canacc_df_one_policy = inr 2
  ∧ Fm.layer_ids_of canacc_df_one_policy = [1; 2].
Proof.
  split; [discriminate|].
  destruct (FmFacts.layer_count_is_number_of_account_rows canacc_df_one_policy)
    as (Hcount & Hids & _); [discriminate|].
  split; [exact Hcount|exact Hids].
Defined.

(** ** PolicyTC grouper *)

Lemma policytc_ids_group_equal_terms_witness :
  Grouper.get_policytc_id
    (Fm.set_column calcrule_id [CInt 2; CInt 2; CInt 3] fm_df0) 0 = Some 1
  ∧ Grouper.get_policytc_id
      (Fm.set_column calcrule_id [CInt 2; CInt 2; CInt 3] fm_df0) 2 = Some 2
  ∧ (1 = 2
     ↔ Grouper.terms_eqb
         (Grouper.terms_of (Fm.set_col calcrule_id (CInt 2) (fm_row 0 1 1 1)))
         (Grouper.terms_of (Fm.set_col calcrule_id (CInt 3) (fm_row 2 1 2 2)))
       = true).
Proof.
  split; [reflexivity|]. split; [reflexivity|].
  destruct (GrouperFacts.policytc_ids_group_equal_terms
              (Fm.set_column calcrule_id [CInt 2; CInt 2; CInt 3] fm_df0))
    as (_ & _ & Hsame & _).
  apply (Hsame 0%nat 2%nat); reflexivity.
Defined.

(** ** Term derivation worker pool *)

(** C4, the claim as it stands, fails: the share rule raises at one row,
    every other worker publishes its column and leaves, and then no thread
    can move; the coordinating thread is at the join and has raised
    nothing. *)
Lemma failing_rule_leaves_the_join_waiting :
  column_result () get_limit get_deductible get_deductible_type
    get_share_raising get_calc_rule gfmt canexp_df canacc_df fm_df0 share
  = None
  ∧ ∃ s, run one_raises begin_raising = Some s
      ∧ main s = MJoin ∧ quiescent s ∧ ¬ aborted s.
Proof.
  split; [reflexivity|]. eexists. split; [vm_compute; reflexivity|].
  split; [reflexivity|]. split; [split; [reflexivity|]|].
  - intros w. do 5 (destruct w as [|w]; [reflexivity|]). reflexivity.
  - intros [e He]. discriminate He.
Qed.

Lemma failing_rule_blocks_the_join_witness :
  ∃ s, run one_raises begin_raising = Some s
    ∧ fm_df s = fm_df0 ∧ unfinished s = 1%nat ∧ main s = MJoin.
Proof.
  eexists. split; [vm_compute; reflexivity|].
  split; [|split; reflexivity].
  refine (proj1 (PoolFacts.failing_rule_blocks_the_join () get_limit
            get_deductible get_deductible_type get_share_raising get_calc_rule
            gfmt canexp_df canacc_df fm_df0 share one_raises _ _ _)).
  - reflexivity.
  - vm_compute. reflexivity.
Defined.

(** C9, the claim as it stands, fails: the flag is set when worker 0 has
    done one row of its column, and its next move is the second row. *)
Lemma worker_goes_on_after_the_flag :
  ∃ s, run interrupted begin = Some s
    ∧ stopper s = true
    ∧ rows_done <$> workers s !! 0%nat = Some (Some 1%nat)
    ∧ (λ s', rows_done <$> workers s' !! 0%nat) <$> exec (EvWorker 0) s
      = Some (Some (Some 2%nat))
    ∧ ¬ exits_between_rows s 0.
Proof.
  eexists. split; [vm_compute; reflexivity|].
  split; [reflexivity|]. split; [reflexivity|]. split; [reflexivity|].
  intros Hexits.
  specialize (Hexits eq_refl 1%nat eq_refl _ eq_refl). discriminate Hexits.
Qed.

Lemma stop_flag_is_read_between_tasks_witness :
  ∃ s s', run interrupted begin = Some s
    ∧ stopper s = true
    ∧ run after_interrupt s = Some s'
    ∧ (result_q s').*1 = [limit]
    ∧ fm_df s' = fm_df s.
Proof.
  do 2 eexists. split; [vm_compute; reflexivity|].
  split; [reflexivity|]. split; [vm_compute; reflexivity|].
  split; [reflexivity|].
  refine (proj1 (proj2 (proj2 (PoolFacts.stop_flag_is_read_between_tasks ()
            get_limit get_deductible get_deductible_type get_share
            get_calc_rule gfmt canexp_df canacc_df fm_df0))
            interrupted _ after_interrupt _ _ _ _)).
  - vm_compute. reflexivity.
  - reflexivity.
  - vm_compute. reflexivity.
Defined.

Lemma term_columns_depend_on_preset_inputs_only_witness :
  ∃ s1 s2, run one_worker begin = Some s1 ∧ main s1 = MReturn
    ∧ run two_workers begin = Some s2 ∧ main s2 = MReturn
    ∧ fm_df s1 = fm_df s2.
Proof.
  do 2 eexists. split; [vm_compute; reflexivity|]. split; [reflexivity|].
  split; [vm_compute; reflexivity|]. split; [reflexivity|].
  refine (proj1 (proj2 (proj2
            (PoolFacts.term_columns_depend_on_preset_inputs_only ()
               get_limit get_deductible get_deductible_type get_share
               get_calc_rule gfmt canexp_df canacc_df fm_df0)))
            one_worker two_workers _ _ _ _ _ _).
  - vm_compute. reflexivity.
  - reflexivity.
  - vm_compute. reflexivity.
  - reflexivity.
Defined.

End OnExample.
